(** * 1day1growth: the entries route and the timeline page

    A shallow embedding of [app/api/entries/route.ts] (the [GET] and [POST]
    handlers) and of the pure parts of [app/page.tsx] ([calcStreak],
    [validateInput], [addEntry], the SWR key function, the loaded pages
    with [list] and [hasMore], and the stars of [EntryCard]), followed by
    the properties of the pagination protocol, the validation contract, the
    tag encoding and the streak computation. *)

From Stdlib Require Import ZArith NArith Ascii String Lia.
From stdpp Require Import base numbers list option sorting.

Local Open Scope Z_scope.

(** ** JavaScript strings

    A JavaScript string is a sequence of UTF-16 code units; [length],
    [trim], [split] and [JSON.stringify] all work on code units. *)

Definition codeUnit := N.
Definition jsstring := list codeUnit.

(** The code units of an ASCII literal of the source. *)
Definition str (s : string) : jsstring :=
  (fun a => N_of_ascii a) <$> list_ascii_of_string s.

(** [ToBoolean] on a string: every string but the empty one is truthy. *)
Definition truthy (s : jsstring) : bool := negb (bool_decide (s = [])).

(** ECMAScript WhiteSpace and LineTerminator, the code units that
    [String.prototype.trim] strips. *)
Definition isWhiteSpace (c : codeUnit) : bool :=
  bool_decide (c ∈ [9; 10; 11; 12; 13; 32; 160; 5760; 8232; 8233; 8239;
                    8287; 12288; 65279]%N)
  || (8192 <=? c)%N && (c <=? 8202)%N.

Fixpoint trimStart (s : jsstring) : jsstring :=
  match s with
  | [] => []
  | c :: rest => if isWhiteSpace c then trimStart rest else s
  end.

Definition trimEnd (s : jsstring) : jsstring :=
  reverse (trimStart (reverse s)).

(** [s.trim()] *)
Definition trim (s : jsstring) : jsstring := trimEnd (trimStart s).

(** [s.split(sep)] for a separator of one code unit.  The empty string
    splits into one empty piece. *)
Fixpoint split (sep : codeUnit) (s : jsstring) : list jsstring :=
  match s with
  | [] => [[]]
  | c :: rest =>
      if bool_decide (c = sep) then [] :: split sep rest
      else match split sep rest with
           | piece :: pieces => (c :: piece) :: pieces
           | [] => [[c]]
           end
  end.

(** Decimal digits of a number, as a template literal prints it. *)
Fixpoint digits (u : Decimal.uint) : jsstring :=
  match u with
  | Decimal.Nil => []
  | Decimal.D0 u => 48%N :: digits u
  | Decimal.D1 u => 49%N :: digits u
  | Decimal.D2 u => 50%N :: digits u
  | Decimal.D3 u => 51%N :: digits u
  | Decimal.D4 u => 52%N :: digits u
  | Decimal.D5 u => 53%N :: digits u
  | Decimal.D6 u => 54%N :: digits u
  | Decimal.D7 u => 55%N :: digits u
  | Decimal.D8 u => 56%N :: digits u
  | Decimal.D9 u => 57%N :: digits u
  end.

Definition toString (n : nat) : jsstring := digits (Nat.to_uint n).

(** ** JSON text of an array of strings

    [JSON.stringify] and [JSON.parse] on the values the [tags] column holds
    under the handlers' type annotation ([string[]]).  The writer follows
    ECMAScript's QuoteJSONString; the reader follows the JSON grammar for
    an array of strings and answers [None] for any other text (a
    SyntaxError, or a value that is no array of strings). *)

Definition hexDigit (d : N) : codeUnit :=
  (if d <? 10 then 48 + d else 87 + d)%N.

(** [UnicodeEscape]: a backslash, a [u] and four lowercase hex digits. *)
Definition unicodeEscape (c : codeUnit) : jsstring :=
  [92; 117; hexDigit (c / 4096 mod 16); hexDigit (c / 256 mod 16);
   hexDigit (c / 16 mod 16); hexDigit (c mod 16)]%N.

Definition isLeadingSurrogate (c : codeUnit) : bool :=
  (55296 <=? c)%N && (c <=? 56319)%N.

Definition isTrailingSurrogate (c : codeUnit) : bool :=
  (56320 <=? c)%N && (c <=? 57343)%N.

(** The body of QuoteJSONString: the escapes of backspace, tab, line feed,
    form feed, carriage return, the quote and the backslash; a unicode
    escape for the other control characters and for a surrogate that has no
    partner; every other code point as it is. *)
Fixpoint quoteChars (s : jsstring) : jsstring :=
  match s with
  | [] => []
  | c :: rest =>
      if (c =? 8)%N then [92; 98]%N ++ quoteChars rest
      else if (c =? 9)%N then [92; 116]%N ++ quoteChars rest
      else if (c =? 10)%N then [92; 110]%N ++ quoteChars rest
      else if (c =? 12)%N then [92; 102]%N ++ quoteChars rest
      else if (c =? 13)%N then [92; 114]%N ++ quoteChars rest
      else if (c =? 34)%N then [92; 34]%N ++ quoteChars rest
      else if (c =? 92)%N then [92; 92]%N ++ quoteChars rest
      else if (c <? 32)%N then unicodeEscape c ++ quoteChars rest
      else if isLeadingSurrogate c then
        match rest with
        | d :: rest' =>
            if isTrailingSurrogate d then c :: d :: quoteChars rest'
            else unicodeEscape c ++ quoteChars rest
        | [] => unicodeEscape c
        end
      else if isTrailingSurrogate c then unicodeEscape c ++ quoteChars rest
      else c :: quoteChars rest
  end.

Definition quoteJSONString (s : jsstring) : jsstring :=
  34%N :: quoteChars s ++ [34%N].

(** The elements of an array, separated by commas. *)
Fixpoint joinElements (l : list jsstring) : jsstring :=
  match l with
  | [] => []
  | [x] => quoteJSONString x
  | x :: rest => quoteJSONString x ++ 44%N :: joinElements rest
  end.

(** [JSON.stringify(tags)] for an array of strings. *)
Definition JSON_stringify (l : list jsstring) : jsstring :=
  91%N :: joinElements l ++ [93%N].

Definition isJSONWhiteSpace (c : codeUnit) : bool :=
  bool_decide (c ∈ [9; 10; 13; 32]%N).

Fixpoint skipWS (s : jsstring) : jsstring :=
  match s with
  | [] => []
  | c :: rest => if isJSONWhiteSpace c then skipWS rest else s
  end.

Definition hexValue (c : codeUnit) : option N :=
  (if (48 <=? c) && (c <=? 57) then Some (c - 48)
   else if (97 <=? c) && (c <=? 102) then Some (c - 87)
   else if (65 <=? c) && (c <=? 70) then Some (c - 55)
   else None)%N.

Definition unhex4 (h1 h2 h3 h4 : codeUnit) : option codeUnit :=
  d1 ← hexValue h1; d2 ← hexValue h2; d3 ← hexValue h3; d4 ← hexValue h4;
  Some (d1 * 4096 + d2 * 256 + d3 * 16 + d4)%N.

(** The character after a backslash, for the escapes of one character. *)
Definition simpleEscape (e : codeUnit) : option codeUnit :=
  (if e =? 34 then Some 34
   else if e =? 92 then Some 92
   else if e =? 47 then Some 47
   else if e =? 98 then Some 8
   else if e =? 102 then Some 12
   else if e =? 110 then Some 10
   else if e =? 114 then Some 13
   else if e =? 116 then Some 9
   else None)%N.

Definition prepend (c : codeUnit) (r : option (jsstring * jsstring))
  : option (jsstring * jsstring) :=
  '(s, rest) ← r; Some (c :: s, rest).

(** The characters of a JSON string after its opening quote, up to the
    closing quote: the string value and the text that follows it. *)
Fixpoint parseChars (s : jsstring) : option (jsstring * jsstring) :=
  match s with
  | [] => None
  | c :: rest =>
      if (c =? 34)%N then Some ([], rest)
      else if (c =? 92)%N then
        match rest with
        | [] => None
        | e :: rest1 =>
            if (e =? 117)%N then
              match rest1 with
              | h1 :: h2 :: h3 :: h4 :: rest2 =>
                  match unhex4 h1 h2 h3 h4 with
                  | Some v => prepend v (parseChars rest2)
                  | None => None
                  end
              | _ => None
              end
            else
              match simpleEscape e with
              | Some v => prepend v (parseChars rest1)
              | None => None
              end
        end
      else if (c <? 32)%N then None
      else prepend c (parseChars rest)
  end.

(** The elements of a non-empty array after its opening bracket, up to the
    closing bracket.  Every round consumes a string, so the length of the
    text bounds the number of rounds. *)
Fixpoint parseElements (fuel : nat) (s : jsstring)
  : option (list jsstring * jsstring) :=
  match fuel with
  | O => None
  | S fuel' =>
      match skipWS s with
      | q :: s1 =>
          if (q =? 34)%N then
            '(x, s2) ← parseChars s1;
            match skipWS s2 with
            | d :: s3 =>
                if (d =? 44)%N then
                  '(xs, s4) ← parseElements fuel' s3; Some (x :: xs, s4)
                else if (d =? 93)%N then Some ([x], s3)
                else None
            | [] => None
            end
          else None
      | [] => None
      end
  end.

(** [JSON.parse(text)] for the text of an array of strings: [Some l] when
    [text] is the JSON text of the array [l] of strings.  [None] stands for
    every other text, one that [JSON.parse] throws on as well as the JSON
    text of a value of another shape (a number, [null], an array of
    numbers), which [JSON.parse] returns and the declared type [string[]]
    of the tags leaves out.  So [Some] is the code's answer, and [None]
    alone does not tell an exception. *)
Definition JSON_parse (text : jsstring) : option (list jsstring) :=
  match skipWS text with
  | b :: s1 =>
      if (b =? 91)%N then
        match skipWS s1 with
        | e :: s2 =>
            if (e =? 93)%N then
              match skipWS s2 with [] => Some [] | _ => None end
            else
              '(xs, s3) ← parseElements (length s1) s1;
              match skipWS s3 with [] => Some xs | _ => None end
        | [] => None
        end
      else None
  | [] => None
  end.

(** ** Entries

    The objects of the responses: a row of the table with its [tags] column
    decoded.  The page's [Entry] interface ([types/entry.ts]) names [id],
    [text], [effort], [tags] and [date]; [date] is held as the time value
    (milliseconds since the epoch) that [new Date] reads back from the ISO
    string of the response. *)
Record Entry := mkEntry {
  id : jsstring;
  date : Z;
  text : jsstring;
  effort : Z;
  tags : list jsstring;
  createdAt : Z;
  updatedAt : Z
}.

#[global] Instance Entry_eq_dec : EqDecision Entry.
Proof. solve_decision. Defined.

(** ** The page: local time and [calcStreak]

    The page runs in the browser's local zone.  This section takes a zone
    with a fixed offset from UTC ([tzOffset] milliseconds east of it), as
    Asia/Tokyo has; it is the case [Zoned.fixed] of the zones of the next
    section, whose offset may change. *)

Definition msPerDay : Z := 86400000.

Section LocalTime.

Variable tzOffset : Z.

(** ECMAScript [Day(LocalTime(t))]: the local calendar day of [t]. *)
Definition localDay (t : Z) : Z := (t + tzOffset) `div` msPerDay.

(** [d.setHours(0, 0, 0, 0)]: the time value of local midnight of the local
    calendar day of [d]. *)
Definition setHours0 (t : Z) : Z := localDay t * msPerDay - tzOffset.

(** [d.setDate(today.getDate() - i)] for a [d] copied from [today]:
    [MakeDay(year, month, date - i)] is the day number of [today] less [i],
    and the time within the day is kept. *)
Definition setDate_getDate_minus (today : Z) (i : nat) : Z :=
  today - Z.of_nat i * msPerDay.

(** The [for] loop of [calcStreak]: [i] is the loop index, [entries] the
    elements from index [i] on, [streak] the running count.  [break] leaves
    the loop with the count so far. *)
Fixpoint calcStreak_for (today : Z) (entries : list Entry) (i streak : nat)
  : nat :=
  match entries with
  | [] => streak
  | e :: rest =>
      let entryDate := setHours0 (date e) in
      let expectedDate := setDate_getDate_minus today i in
      if bool_decide (entryDate = expectedDate)
      then calcStreak_for today rest (S i) (S streak)
      else streak
  end.

(** [calcStreak(entries)], with the clock reading of [new Date()] as the
    argument [now]. *)
Definition calcStreak (now : Z) (entries : list Entry) : nat :=
  if bool_decide (length entries = 0%nat) then 0%nat
  else
    let today := setHours0 now in
    calcStreak_for today entries 0 0.


End LocalTime.

(** ** The page: local time in a zone whose offset changes

    The same functions of the page in a zone with transitions (daylight
    saving time), by the definitions of ECMAScript: a time value is
    converted to local time with the offset in force at that moment, and a
    local time value back with the offset it is read by. *)
Module Zoned.

(** A time zone: [offsetAt t] is [LocalTZA(t, true)], the offset of local
    time from UTC in force at the moment [t]; [offsetOfLocal t] is
    [LocalTZA(t, false)], the offset by which the local time value [t] is
    read (for a local time that occurs twice or never, the offset before
    the transition). *)
Record Zone := mkZone {
  offsetAt : Z → Z;
  offsetOfLocal : Z → Z
}.

(** ECMAScript [LocalTime(t)] and [UTC(t)]. *)
Definition LocalTime (zone : Zone) (t : Z) : Z := t + offsetAt zone t.
Definition UTC (zone : Zone) (t : Z) : Z := t - offsetOfLocal zone t.

(** ECMAScript [Day(t)] and [TimeWithinDay(t)]. *)
Definition Day (t : Z) : Z := t `div` msPerDay.
Definition TimeWithinDay (t : Z) : Z := t `mod` msPerDay.

(** [Day(LocalTime(t))]: the local calendar day of [t]. *)
Definition localDay (zone : Zone) (t : Z) : Z := Day (LocalTime zone t).

(** [d.setHours(0, 0, 0, 0)]:
    [UTC(MakeDate(Day(LocalTime(t)), MakeTime(0, 0, 0, 0)))]. *)
Definition setHours0 (zone : Zone) (t : Z) : Z :=
  UTC zone (Day (LocalTime zone t) * msPerDay).

(** [d.setDate(today.getDate() - i)] for a [d] copied from [today]: with
    [t = LocalTime(today)] it is
    [UTC(MakeDate(MakeDay(year, month, date - i), TimeWithinDay(t)))], and
    [MakeDay(year, month, date - i)] is [Day(t) - i] for the year, month
    and date of [t]. *)
Definition setDate_getDate_minus (zone : Zone) (today : Z) (i : nat) : Z :=
  let t := LocalTime zone today in
  UTC zone ((Day t - Z.of_nat i) * msPerDay + TimeWithinDay t).

(** The [for] loop of [calcStreak], as in the section before. *)
Fixpoint calcStreak_for (zone : Zone) (today : Z) (entries : list Entry)
  (i streak : nat) : nat :=
  match entries with
  | [] => streak
  | e :: rest =>
      let entryDate := setHours0 zone (date e) in
      let expectedDate := setDate_getDate_minus zone today i in
      if bool_decide (entryDate = expectedDate)
      then calcStreak_for zone today rest (S i) (S streak)
      else streak
  end.

(** [calcStreak(entries)], with the clock reading of [new Date()] as the
    argument [now]. *)
Definition calcStreak (zone : Zone) (now : Z) (entries : list Entry) : nat :=
  if bool_decide (length entries = 0%nat) then 0%nat
  else
    let today := setHours0 zone now in
    calcStreak_for zone today entries 0 0.

(** The comparison of the loop at index [i]: the date of the entry,
    normalized to local midnight, is today's local midnight moved back [i]
    days. *)
Definition matchesExpectedDate (zone : Zone) (now : Z) (i : nat) (e : Entry)
  : Prop :=
  setHours0 zone (date e)
  = setDate_getDate_minus zone (setHours0 zone now) i.

(** Every local midnight is a moment of the zone: read as UTC and back, it
    is the same local time.  It fails only in a zone that skips midnight at
    a transition. *)
Definition midnightsKept (zone : Zone) : Prop :=
  ∀ d, LocalTime zone (UTC zone (d * msPerDay)) = d * msPerDay.

(** The entry at index [i] is of the calendar day [i] days before the
    calendar day of [now], both read in the zone. *)
Definition onExpectedDay (zone : Zone) (now : Z) (i : nat) (e : Entry)
  : Prop :=
  localDay zone (date e) = localDay zone now - Z.of_nat i.

(** The zone of a fixed offset. *)
Definition fixed (tzOffset : Z) : Zone :=
  mkZone (fun _ => tzOffset) (fun _ => tzOffset).

(** America/New_York around the end of daylight saving time in 2025: four
    hours behind UTC until 2 November 2025, 06:00 UTC, five hours behind
    from then on.  The local times from 01:00 to 02:00 of that day occur
    twice and are read by the offset before the transition. *)
Definition newYork : Zone :=
  mkZone (fun t => if bool_decide (t < 1762063200000)
                   then -14400000 else -18000000)
         (fun t => if bool_decide (t < 1762048800000)
                   then -14400000 else -18000000).

End Zoned.

(** ** The page: the form

    [validateInput] answers one of two messages, or [null]. *)
Inductive ValidationMessage :=
| EnterGrowth    (* the message asking to enter the text *)
| Within500.     (* the message asking for at most 500 characters *)

Definition validateInput (text : jsstring) : option ValidationMessage :=
  if negb (truthy (trim text)) then Some EnterGrowth
  else if bool_decide (500 < length text)%nat then Some Within500
  else None.

(** The key function handed to [useSWRInfinite]: the URL query of the
    request for the page of index [index]. *)
Definition getKey (index : nat) : list (jsstring * jsstring) :=
  [(str "page", toString (index + 1))].

(** ** The table

    A row of [GrowthEntry] (the migration's columns); the table is the list
    of its rows in insertion order, oldest first. *)
Record GrowthEntry := mkRow {
  g_id : jsstring;
  g_date : Z;
  g_text : jsstring;
  g_effort : Z;
  g_tags : jsstring;
  g_createdAt : Z;
  g_updatedAt : Z
}.

#[global] Instance GrowthEntry_eq_dec : EqDecision GrowthEntry.
Proof. solve_decision. Defined.

Definition Table := list GrowthEntry.

(** The primary key: no two rows share an [id]. *)
Definition primaryKey (table : Table) : Prop := NoDup (g_id <$> table).

Inductive SortOrder := asc | desc.

(** The arguments of [findMany] that the route uses. *)
Record FindManyArgs := mkArgs {
  orderBy_date : SortOrder;
  take_ : nat;
  cursor : option jsstring;
  skip : nat
}.

(** [a] may stand before [b] under [orderBy: { date: o }].  Rows of equal
    date may stand either way: the query names no second key. *)
Definition dateOrder (o : SortOrder) (a b : GrowthEntry) : Prop :=
  match o with
  | desc => g_date b ≤ g_date a
  | asc => g_date a ≤ g_date b
  end.

#[global] Instance dateOrder_dec o a b : Decision (dateOrder o a b).
Proof. destruct o; simpl; apply _. Defined.

(** The rows from the one the cursor names on; none when no row has that
    id. *)
Fixpoint fromCursor (c : jsstring) (rows : list GrowthEntry)
  : list GrowthEntry :=
  match rows with
  | [] => []
  | r :: rest => if bool_decide (g_id r = c) then rows else fromCursor c rest
  end.

(** [searchParams.get(name)]: the first value under [name], or [null]. *)
Fixpoint searchParams_get (name : jsstring)
  (searchParams : list (jsstring * jsstring)) : option jsstring :=
  match searchParams with
  | [] => None
  | (k, v) :: rest =>
      if bool_decide (k = name) then Some v else searchParams_get name rest
  end.

(** The body of a successful list response. *)
Record Page := mkPage {
  entries : list Entry;
  nextCursor : option jsstring
}.

(** The mapping of [GET] from a row to an entry:
    [tags: entry.tags ? JSON.parse(entry.tags) : []]. *)
Definition decodeRow (entry : GrowthEntry) : option Entry :=
  decoded ← (if truthy (g_tags entry) then JSON_parse (g_tags entry)
             else Some []);
  Some (mkEntry (g_id entry) (g_date entry) (g_text entry) (g_effort entry)
          decoded (g_createdAt entry) (g_updatedAt entry)).

Section Engine.

(** The order in which the database visits the rows of a table before it
    sorts them, which decides how rows of equal date come out. *)
Variable tableScan : Table → list GrowthEntry.

(** The result set of a query ordered by date alone: the rows as the
    database visits them, sorted by date.  Which of two rows of equal date
    comes first is left to [tableScan]. *)
Definition ordered (o : SortOrder) (table : Table) : list GrowthEntry :=
  merge_sort (dateOrder o) (tableScan table).

(** [prisma.growthEntry.findMany(args)], as Prisma documents cursor
    pagination: the cursor marks a place in the ordered result set, the
    result starts at the row it names (a cursor that names no row gives no
    rows), [skip] drops rows from there and [take] bounds the count. *)
Definition findMany (table : Table) (args : FindManyArgs)
  : list GrowthEntry :=
  let rows := ordered (orderBy_date args) table in
  let rows :=
    match cursor args with
    | Some c => fromCursor c rows
    | None => rows
    end in
  firstn (take_ args) (skipn (skip args) rows).

(** The argument object of the call of [findMany] in [GET]:
    [{ orderBy: { date: desc }, take: take + 1 }], and with a cursor that
    is truthy also [cursor: { id: cursor }, skip: 1]. *)
Definition findManyArgs (take : nat) (cursor : option jsstring)
  : FindManyArgs :=
  match cursor with
  | Some c =>
      if truthy c then mkArgs desc (take + 1) (Some c) 1
      else mkArgs desc (take + 1) None 0
  | None => mkArgs desc (take + 1) None 0
  end.

(** The handler [GET] with its constant [take] as an argument.  [None]
    stands for a row of the page whose tags text does not read as a list of
    strings ([JSON_parse]); where [JSON.parse] throws on it, the response
    is that of an exception. *)
Definition GET_take (take : nat) (table : Table)
  (searchParams : list (jsstring * jsstring)) : option Page :=
  let cursor := searchParams_get (str "cursor") searchParams in
  let result := findMany table (findManyArgs take cursor) in
  let '(result, nextCursor) :=
    if bool_decide (take < length result)%nat
    then (removelast result, g_id <$> last result)
    else (result, None) in
  entries ← mapM decodeRow result;
  Some (mkPage entries nextCursor).

(** [GET]: [const take = 20]. *)
Definition GET (table : Table) (searchParams : list (jsstring * jsstring))
  : option Page :=
  GET_take 20 table searchParams.

End Engine.

(** ** Creation

    The JSON body of a [POST] request; a field that is missing reads as
    [undefined].  The effort is held as the integer that the number of the
    body is; the model of what the database stores and returns is that of
    the efforts of its column type, [Int32] below, and the properties that
    speak of the stored effort keep to them. *)
Record Body := mkBody {
  body_text : option jsstring;
  body_effort : option Z;
  body_tags : option (list jsstring)
}.

Inductive PostResponse :=
| Created (entry : Entry)   (* status 201 and the created entry *)
| BadRequest                (* status 400 *)
| ServerError.              (* an exception of the handler: status 500 *)

(** [!text]: [undefined] and the empty string are falsy. *)
Definition not_text (text : option jsstring) : bool :=
  match text with
  | Some s => negb (truthy s)
  | None => true
  end.

(** [!effort]: [undefined] and zero are falsy. *)
Definition not_effort (effort : option Z) : bool :=
  match effort with
  | Some n => bool_decide (n = 0)
  | None => true
  end.

(** [prisma.growthEntry.create({ data })]: the row gets the generated id
    [newId] and the clock reading [now] in its three date columns, and is
    appended; a row of that id already there violates the primary key and
    the call throws.  For an effort beyond [Int32] the call of the code may
    write the row and throw when it reads it back, which this definition
    leaves out. *)
Definition prisma_create (table : Table) (newId : jsstring) (now : Z)
  (text : jsstring) (effort : Z) (tags : jsstring)
  : option (Table * GrowthEntry) :=
  if bool_decide (newId ∈ (g_id <$> table)) then None
  else
    let created := mkRow newId now text effort tags now now in
    Some (table ++ [created], created).

(** The handler [POST]: the table after the request and the response. *)
Definition POST (table : Table) (newId : jsstring) (now : Z) (body : Body)
  : Table * PostResponse :=
  let text := body_text body in
  let effort := body_effort body in
  let tags := body_tags body in
  if not_text text || not_effort effort then (table, BadRequest)
  else
    match prisma_create table newId now (default [] text) (default 0 effort)
            (JSON_stringify (default [] tags)) with
    | None => (table, ServerError)
    | Some (table', created) =>
        match JSON_parse (g_tags created) with
        | Some decoded =>
            (table',
             Created (mkEntry (g_id created) (g_date created)
                        (g_text created) (g_effort created) decoded
                        (g_createdAt created) (g_updatedAt created)))
        | None => (table', ServerError)
        end
    end.

(** [response.ok] *)
Definition ok (response : PostResponse) : bool :=
  match response with
  | Created _ => true
  | _ => false
  end.

(** The state of the form: the text area, the range input and the tags
    input. *)
Record Form := mkForm {
  form_text : jsstring;
  form_effort : Z;
  form_tags : jsstring
}.

Inductive AddResult :=
| Invalid (message : ValidationMessage)  (* setError; no request is sent *)
| Failed                                 (* the response was not ok *)
| Recorded.                              (* the form is reset *)

(** [addEntry]: validation, then the request with the trimmed text and the
    tags split at commas, trimmed, the empty ones dropped. *)
Definition addEntry (table : Table) (newId : jsstring) (now : Z) (form : Form)
  : Table * AddResult :=
  match validateInput (form_text form) with
  | Some validationError => (table, Invalid validationError)
  | None =>
      let payload :=
        mkBody (Some (trim (form_text form))) (Some (form_effort form))
          (Some (filter (fun t => truthy t = true)
                   (trim <$> split 44%N (form_tags form)))) in
      let '(table', response) := POST table newId now payload in
      if ok response then (table', Recorded) else (table', Failed)
  end.

(** ** The pagination protocol

    A client that follows the cursors: it asks for the first page and then
    for the page after each [nextCursor] until none is returned, and
    concatenates the pages.  [fuel] bounds the number of requests; [None]
    is a failed request or the bound reached. *)
Fixpoint listAll (tableScan : Table → list GrowthEntry) (fuel : nat)
  (table : Table) (searchParams : list (jsstring * jsstring))
  : option (list Entry) :=
  match fuel with
  | O => None
  | S fuel' =>
      page ← GET tableScan table searchParams;
      match nextCursor page with
      | None => Some (entries page)
      | Some c =>
          rest ← listAll tableScan fuel' table [(str "cursor", c)];
          Some (entries page ++ rest)
      end
  end.

(** ** Vocabulary of the properties *)

(** The cursor a request carries: the value of its [cursor] parameter when
    there is one and it is not empty. *)
Definition cursorOf (searchParams : list (jsstring * jsstring))
  : option jsstring :=
  match searchParams_get (str "cursor") searchParams with
  | Some c => if truthy c then Some c else None
  | None => None
  end.

(** The rows a request may still be served: the whole result set, or with a
    cursor the rows that follow the cursor's row. *)
Definition rowsAfter (tableScan : Table → list GrowthEntry) (table : Table)
  (c : option jsstring) : list GrowthEntry :=
  match c with
  | Some c => skipn 1 (fromCursor c (ordered tableScan desc table))
  | None => ordered tableScan desc table
  end.

(** A request that differs from another only in [page] parameters has the
    same parameters once those are left out. *)
Definition withoutPage (searchParams : list (jsstring * jsstring))
  : list (jsstring * jsstring) :=
  filter (fun kv => kv.1 ≠ str "page") searchParams.



(** The values of [Int], the type of the column [effort] in the schema:
    the integers of 32 bits. *)
Definition Int32 (n : Z) : Prop := -2147483648 ≤ n ≤ 2147483647.




(** Dates never increase along the list. *)
Definition dateDescending (es : list Entry) : Prop :=
  StronglySorted (fun a b => date b ≤ date a) es.

(** The rows that a client following the cursors is served, out of the rows
    [rows] that follow its first cursor: a page of 20, then the rows served
    out of what follows the twenty-first row.  [fuel] bounds the number of
    pages as it does in [listAll]. *)
Fixpoint servedRows (fuel : nat) (rows : list GrowthEntry)
  : option (list GrowthEntry) :=
  match fuel with
  | O => None
  | S fuel' =>
      if bool_decide (20 < length rows)%nat then
        rest ← servedRows fuel' (skipn 21 rows);
        Some (firstn 20 rows ++ rest)
      else Some rows
  end.

(** The scan that visits the rows in insertion order.  On a table of
    distinct dates every scan gives the same result set; it is used on such
    tables only. *)
Definition insertionScan (table : Table) : list GrowthEntry := table.


(** ** Sample data

    The row number [k] of a table with one entry a day: its id is the
    decimal numeral of [k], its date is [k] days before noon of 2 November
    2025 in Tokyo, and it has no tags. *)
Definition noon : Z := 1762052400000.
Definition tokyo : Z := 32400000.

Definition dailyRow (k : nat) : GrowthEntry :=
  let t := noon - Z.of_nat k * msPerDay in
  mkRow (toString k) t (str "growth") 3 (JSON_stringify []) t t.

(** A table of [n] daily rows, inserted oldest first. *)
Definition dailyTable (n : nat) : Table := reverse (dailyRow <$> seq 0 n).

(** Entries of today, of the two days before and of five days ago. *)
Definition scenarioTable : Table := reverse (dailyRow <$> [0; 1; 2; 5]%nat).



(** ** The page: the payload, the loaded pages and the card *)

(** The tags of the payload of [addEntry]: the input split at commas, each
    piece trimmed, the empty pieces dropped
    ([tags.split(",").map((t) => t.trim()).filter(Boolean)]). *)
Definition parseTags (tags : jsstring) : list jsstring :=
  filter (fun t => truthy t = true) (trim <$> split 44%N tags).

(** No white space at either end. *)
Definition trimmed (s : jsstring) : Prop :=
  (∀ c, head s = Some c → isWhiteSpace c = false)
  ∧ (∀ c, last s = Some c → isWhiteSpace c = false).

(** [data] of [useSWRInfinite(getKey, fetcher)] once its [size] pages are
    loaded: the responses to the requests of [getKey 0] up to
    [getKey (size - 1)], in that order; [None] ([undefined]) when a request
    failed. *)
Definition swrData (tableScan : Table → list GrowthEntry) (table : Table)
  (size : nat) : option (list Page) :=
  mapM (fun index => GET tableScan table (getKey index)) (seq 0 size).

(** [const list = data ? data.flatMap(page => page.entries) : []] *)
Definition HomePage_list (data : option (list Page)) : list Entry :=
  match data with
  | Some data => data ≫= entries
  | None => []
  end.

(** [const hasMore = data && data[data.length - 1]?.entries.length > 0],
    as the condition the button is rendered under. *)
Definition HomePage_hasMore (data : option (list Page)) : bool :=
  match data with
  | Some data =>
      match last data with
      | Some page => bool_decide (0 < length (entries page))%nat
      | None => false
      end
  | None => false
  end.

(** [s.repeat(count)] for an integer [count]: a RangeError ([None]) when
    [count] is negative, else [count] copies of [s].  An engine also throws
    a RangeError when the result is longer than the strings it allows,
    which is left out: the properties keep to small counts. *)
Definition String_repeat (s : jsstring) (count : Z) : option jsstring :=
  if bool_decide (count < 0) then None
  else Some (mjoin (replicate (Z.to_nat count) s)).

(** The stars of [EntryCard]: the star (U+2605) repeated [entry.effort]
    times. *)
Definition EntryCard_stars (entry : Entry) : option jsstring :=
  String_repeat [9733%N] (effort entry).

(** The tables that requests to [POST] build from the empty table. *)
Inductive posted : Table → Prop :=
| posted_empty : posted []
| posted_POST table newId now body :
    posted table → posted (POST table newId now body).1.

(** The tables built by requests to [POST] whose effort, when there is
    one, is a value of the column type. *)
Inductive postedInt32 : Table → Prop :=
| postedInt32_empty : postedInt32 []
| postedInt32_POST table newId now body :
    postedInt32 table →
    (∀ n, body_effort body = Some n → Int32 n) →
    postedInt32 (POST table newId now body).1.

(** The tags text of a row that [GET] decodes: empty, or the JSON text of
    a list of strings. *)
Definition tagsReadable (r : GrowthEntry) : Prop :=
  g_tags r = [] ∨ is_Some (JSON_parse (g_tags r)).

(** White space through and through; the empty string is. *)
Definition allWhiteSpace (s : jsstring) : Prop :=
  Forall (fun c => isWhiteSpace c = true) s.

(** The rows that [POST] writes: a text that is not empty, an effort that
    is not zero, the three dates alike, and tags that [GET] can decode. *)
Definition postedRow (r : GrowthEntry) : Prop :=
  g_text r ≠ [] ∧ g_effort r ≠ 0
  ∧ g_createdAt r = g_date r ∧ g_updatedAt r = g_date r
  ∧ ∃ decoded, g_tags r = JSON_stringify decoded.

(** ** More sample data *)


(** A clock reading of 3 November 2025, 04:30 UTC: half past eleven in
    the evening of 2 November in New York, after the clocks went back. *)
Definition lateEvening : Z := 1762144200000.

(** An entry of that moment and one of 1 November 2025, 04:30 UTC: half
    past midnight of 1 November in New York, before the clocks went
    back. *)
Definition acrossTheChange : list Entry :=
  [mkEntry (str "b") lateEvening (str "second") 3 [] lateEvening
     lateEvening;
   mkEntry (str "a") 1761971400000 (str "first") 3 [] 1761971400000
     1761971400000].

(** One entry of 2 November 2025, 04:30 UTC: half past midnight of
    2 November in New York, before the clocks went back. *)
Definition earlyMorning : list Entry :=
  [mkEntry (str "a") 1762057800000 (str "first") 3 [] 1762057800000
     1762057800000].

(** Three daily rows; the oldest has a tags text that is no JSON text. *)
Definition brokenOldest : Table :=
  [mkRow (str "2") (noon - 2 * msPerDay) (str "growth") 3 (str "oops")
     noon noon;
   dailyRow 1; dailyRow 0].

(** A form with white space around its text and its tags, and an empty
    piece among the tags. *)
Definition sampleForm : Form :=
  mkForm (str "  grew  ") 3 (str " a, b ,,").

(** The table after two requests to [POST], the second with no tags. *)
Definition twoPosts : Table :=
  (POST
     (POST [] (str "c1") noon
        (mkBody (Some (str "one")) (Some 2) (Some [str "a"]))).1
     (str "c2") (noon + 1000) (mkBody (Some (str "two")) (Some 5) None)).1.

(** * Properties *)

(** ** The streak *)

Section Streak.

Variable tzOffset : Z.





End Streak.

(** ** The streak in a zone whose offset changes *)

Lemma fixed_midnightsKept tzOffset :
  Zoned.midnightsKept (Zoned.fixed tzOffset).
Proof.
  intros d. unfold Zoned.LocalTime, Zoned.UTC, Zoned.fixed. simpl. lia.
Qed.

Lemma newYork_midnightsKept : Zoned.midnightsKept Zoned.newYork.
Proof.
  intros d. unfold Zoned.LocalTime, Zoned.UTC, Zoned.newYork. simpl.
  repeat case_bool_decide; unfold msPerDay in *; lia.
Qed.

(** In a zone of fixed offset the functions are those of the section
    [LocalTime]. *)
Lemma setHours0_fixed tzOffset t :
  Zoned.setHours0 (Zoned.fixed tzOffset) t = setHours0 tzOffset t.
Proof. reflexivity. Qed.

Lemma setDate_getDate_minus_fixed tzOffset today i :
  Zoned.setDate_getDate_minus (Zoned.fixed tzOffset) today i
  = setDate_getDate_minus today i.
Proof.
  unfold Zoned.setDate_getDate_minus, setDate_getDate_minus, Zoned.UTC,
    Zoned.LocalTime, Zoned.Day, Zoned.TimeWithinDay, Zoned.fixed. simpl.
  pose proof (Z.div_mod (today + tzOffset) msPerDay ltac:(done)). lia.
Qed.

Lemma calcStreak_for_fixed tzOffset today entries i streak :
  Zoned.calcStreak_for (Zoned.fixed tzOffset) today entries i streak
  = calcStreak_for tzOffset today entries i streak.
Proof.
  revert i streak. induction entries as [|e rest IH]; intros i streak;
    [done|].
  cbn [Zoned.calcStreak_for calcStreak_for]. cbv zeta.
  rewrite setHours0_fixed, setDate_getDate_minus_fixed, IH. done.
Qed.

Lemma calcStreak_fixed tzOffset now entries :
  Zoned.calcStreak (Zoned.fixed tzOffset) now entries
  = calcStreak tzOffset now entries.
Proof.
  unfold Zoned.calcStreak, calcStreak. cbv zeta.
  by rewrite calcStreak_for_fixed, setHours0_fixed.
Qed.

Section StreakZoned.

Variable zone : Zoned.Zone.

Section MidnightsKept.

Hypothesis midnights : Zoned.midnightsKept zone.

(** Today's local midnight, read in the zone, is the start of today. *)
Lemma zoned_today_local now :
  Zoned.LocalTime zone (Zoned.setHours0 zone now)
  = Zoned.localDay zone now * msPerDay.
Proof. apply midnights. Qed.

(** The date the loop expects at index [i] is the local midnight of the
    calendar day [i] days before today. *)
Lemma zoned_expectedDate now i :
  Zoned.setDate_getDate_minus zone (Zoned.setHours0 zone now) i
  = Zoned.UTC zone ((Zoned.localDay zone now - Z.of_nat i) * msPerDay).
Proof.
  unfold Zoned.setDate_getDate_minus. cbv zeta. rewrite zoned_today_local.
  unfold Zoned.Day, Zoned.TimeWithinDay.
  rewrite Z.div_mul, Z.mod_mul by done. f_equal. lia.
Qed.

(** The comparison of the loop holds exactly for an entry of that calendar
    day. *)
Lemma zoned_comparison now i t :
  Zoned.setHours0 zone t
  = Zoned.setDate_getDate_minus zone (Zoned.setHours0 zone now) i
  ↔ Zoned.localDay zone t = Zoned.localDay zone now - Z.of_nat i.
Proof.
  rewrite zoned_expectedDate. unfold Zoned.setHours0.
  fold (Zoned.localDay zone t). split.
  - intros H. apply (f_equal (Zoned.LocalTime zone)) in H.
    rewrite !midnights in H. unfold msPerDay in H. lia.
  - by intros ->.
Qed.

End MidnightsKept.

Lemma zoned_for_acc today entries i streak :
  Zoned.calcStreak_for zone today entries i streak
  = (streak + Zoned.calcStreak_for zone today entries i 0)%nat.
Proof.
  revert i streak. induction entries as [|e rest IH]; intros i streak; simpl.
  - lia.
  - case_bool_decide; [|lia].
    rewrite (IH (S i) (S streak)), (IH (S i) 1%nat). lia.
Qed.

Lemma zoned_for_le today entries i :
  (Zoned.calcStreak_for zone today entries i 0 ≤ length entries)%nat.
Proof.
  revert i. induction entries as [|e rest IH]; intros i; simpl; [lia|].
  case_bool_decide; [|lia].
  rewrite zoned_for_acc. specialize (IH (S i)). lia.
Qed.

(** Every index below the count holds an entry of the expected date. *)
Lemma zoned_for_below today entries i k e :
  entries !! k = Some e →
  (k < Zoned.calcStreak_for zone today entries i 0)%nat →
  Zoned.setHours0 zone (date e)
  = Zoned.setDate_getDate_minus zone today (i + k).
Proof.
  revert i k. induction entries as [|e0 rest IH]; intros i k Hk Hlt.
  - simpl in Hlt. lia.
  - simpl in Hlt. case_bool_decide as Heq; [|lia].
    rewrite zoned_for_acc in Hlt.
    destruct k as [|k]; simpl in Hk.
    + injection Hk as <-. by rewrite Nat.add_0_r.
    + rewrite (IH (S i) k Hk); [|lia]. f_equal. lia.
Qed.

(** The index at the count, when there is one, breaks the streak. *)
Lemma zoned_for_at today entries i e :
  entries !! Zoned.calcStreak_for zone today entries i 0 = Some e →
  Zoned.setHours0 zone (date e)
  ≠ Zoned.setDate_getDate_minus zone today
      (i + Zoned.calcStreak_for zone today entries i 0).
Proof.
  revert i. induction entries as [|e0 rest IH]; intros i; simpl.
  - discriminate.
  - case_bool_decide as Heq.
    + rewrite zoned_for_acc. simpl. intros Hk Habs.
      apply (IH (S i) Hk). rewrite Habs. f_equal. lia.
    + simpl. intros [= <-]. by rewrite Nat.add_0_r.
Qed.

Lemma zoned_for_all today entries i :
  (∀ k e, entries !! k = Some e →
          Zoned.setHours0 zone (date e)
          = Zoned.setDate_getDate_minus zone today (i + k)) →
  Zoned.calcStreak_for zone today entries i 0 = length entries.
Proof.
  revert i. induction entries as [|e0 rest IH]; intros i Hall; simpl; [done|].
  rewrite bool_decide_true.
  - rewrite zoned_for_acc, (IH (S i)); [done|].
    intros k e Hk. rewrite (Hall (S k) e Hk). f_equal. lia.
  - rewrite (Hall 0%nat e0 eq_refl). f_equal. lia.
Qed.

Lemma zoned_calcStreak_unfold now entries :
  Zoned.calcStreak zone now entries
  = Zoned.calcStreak_for zone (Zoned.setHours0 zone now) entries 0 0.
Proof.
  unfold Zoned.calcStreak. case_bool_decide as Hlen; [|done].
  by destruct entries.
Qed.

(** C1.  [calcStreak] returns the length of the longest prefix whose entry
    at every index [i] has, as its date normalized to local midnight,
    today's local midnight moved back [i] days: the count is within the
    sequence, every index below it matches, the index at it (where the
    loop stopped) does not; the empty sequence gives 0 and a sequence
    matching at every index gives its length.  No ordering of the sequence
    is needed, and the zone may change its offset.  In a zone that keeps
    its midnights, the entry at index [i] matches exactly when it is of the
    calendar day [i] days before today's. *)
Theorem calcStreak_longest_matching_prefix (now : Z) (es : list Entry) :
  Zoned.calcStreak zone now [] = 0%nat
  ∧ (Zoned.calcStreak zone now es ≤ length es)%nat
  ∧ (∀ i e, es !! i = Some e → (i < Zoned.calcStreak zone now es)%nat →
            Zoned.matchesExpectedDate zone now i e)
  ∧ (∀ e, es !! Zoned.calcStreak zone now es = Some e →
          ¬ Zoned.matchesExpectedDate zone now
              (Zoned.calcStreak zone now es) e)
  ∧ ((∀ i e, es !! i = Some e → Zoned.matchesExpectedDate zone now i e) →
     Zoned.calcStreak zone now es = length es)
  ∧ (Zoned.midnightsKept zone →
     ∀ i e, Zoned.matchesExpectedDate zone now i e
            ↔ Zoned.onExpectedDay zone now i e).
Proof.
  rewrite !zoned_calcStreak_unfold.
  unfold Zoned.matchesExpectedDate, Zoned.onExpectedDay.
  split; [done|]. split; [apply zoned_for_le|].
  split; [|split; [|split]].
  - intros i e Hi Hlt. by rewrite (zoned_for_below _ _ _ _ _ Hi Hlt).
  - intros e He. by apply zoned_for_at in He.
  - intros Hall. apply zoned_for_all. intros k e Hk.
    by rewrite (Hall k e Hk).
  - intros Hzone i e. by apply zoned_comparison.
Qed.

End StreakZoned.

(** ** The tag encoding *)

Section Json.

Local Open Scope N_scope.

Ltac nat_cases :=
  repeat match goal with
    | |- context [?a <=? ?b] => destruct (N.leb_spec a b)
    | |- context [?a <? ?b] => destruct (N.ltb_spec a b)
    | |- context [?a =? ?b] => destruct (N.eqb_spec a b)
    end;
  cbn [andb orb negb]; cbv iota; try done; try lia.

Lemma hexValue_hexDigit d : d < 16 → hexValue (hexDigit d) = Some d.
Proof.
  intros Hd. unfold hexValue, hexDigit. nat_cases; f_equal; lia.
Qed.

Lemma unhex4_hexDigits c :
  c < 65536 →
  unhex4 (hexDigit (c / 4096 mod 16)) (hexDigit (c / 256 mod 16))
    (hexDigit (c / 16 mod 16)) (hexDigit (c mod 16)) = Some c.
Proof.
  intros Hc. unfold unhex4.
  rewrite !hexValue_hexDigit by (apply N.mod_lt; lia). simpl. f_equal.
  zify. Z.to_euclidean_division_equations. lia.
Qed.

Lemma quoteChars_cons c rest :
  quoteChars (c :: rest)
  = if c =? 8 then [92; 98] ++ quoteChars rest
    else if c =? 9 then [92; 116] ++ quoteChars rest
    else if c =? 10 then [92; 110] ++ quoteChars rest
    else if c =? 12 then [92; 102] ++ quoteChars rest
    else if c =? 13 then [92; 114] ++ quoteChars rest
    else if c =? 34 then [92; 34] ++ quoteChars rest
    else if c =? 92 then [92; 92] ++ quoteChars rest
    else if c <? 32 then unicodeEscape c ++ quoteChars rest
    else if isLeadingSurrogate c then
      match rest with
      | d :: rest' =>
          if isTrailingSurrogate d then c :: d :: quoteChars rest'
          else unicodeEscape c ++ quoteChars rest
      | [] => unicodeEscape c
      end
    else if isTrailingSurrogate c then unicodeEscape c ++ quoteChars rest
    else c :: quoteChars rest.
Proof. reflexivity. Qed.

Lemma parseChars_cons c rest :
  parseChars (c :: rest)
  = if c =? 34 then Some ([], rest)
    else if c =? 92 then
      match rest with
      | [] => None
      | e :: rest1 =>
          if e =? 117 then
            match rest1 with
            | h1 :: h2 :: h3 :: h4 :: rest2 =>
                match unhex4 h1 h2 h3 h4 with
                | Some v => prepend v (parseChars rest2)
                | None => None
                end
            | _ => None
            end
          else
            match simpleEscape e with
            | Some v => prepend v (parseChars rest1)
            | None => None
            end
      end
    else if c <? 32 then None
    else prepend c (parseChars rest).
Proof. reflexivity. Qed.

(** A code unit written as it is reads as itself. *)
Lemma parseChars_literal c r :
  c ≠ 34 → c ≠ 92 → 32 ≤ c →
  parseChars (c :: r) = prepend c (parseChars r).
Proof. intros. rewrite parseChars_cons. nat_cases. Qed.

(** An escape of one character reads as the character it stands for. *)
Lemma parseChars_simple e v r :
  e ≠ 117 → simpleEscape e = Some v →
  parseChars (92 :: e :: r) = prepend v (parseChars r).
Proof.
  intros Hne Hv. rewrite parseChars_cons.
  change (92 =? 34) with false. change (92 =? 92) with true. cbv iota.
  destruct (N.eqb_spec e 117); [done|]. by rewrite Hv.
Qed.

(** A unicode escape reads as the code unit it spells. *)
Lemma parseChars_unicode c r :
  c < 65536 →
  parseChars (unicodeEscape c ++ r) = prepend c (parseChars r).
Proof.
  intros Hc. unfold unicodeEscape.
  change (parseChars ([?a; ?b; ?h1; ?h2; ?h3; ?h4] ++ r))
    with (match unhex4 h1 h2 h3 h4 with
          | Some v => prepend v (parseChars r)
          | None => None
          end).
  by rewrite unhex4_hexDigits.
Qed.

Local Arguments parseChars : simpl never.
Local Arguments quoteChars : simpl never.
Local Arguments unicodeEscape : simpl never.

(** Reading what [quoteChars] wrote, up to the closing quote, gives the
    string back and leaves the text after the quote. *)
Lemma parseChars_quoteChars s rest :
  parseChars (quoteChars s ++ 34 :: rest) = Some (s, rest).
Proof.
  remember (length s) as n eqn:Hn.
  revert s Hn. induction (lt_wf n) as [n _ IH]. intros s ->.
  destruct s as [|c s]; [done|].
  assert (IH1 : parseChars (quoteChars s ++ 34 :: rest) = Some (s, rest))
    by (eapply IH; [|done]; simpl; lia).
  rewrite quoteChars_cons.
  nat_cases; subst;
    try (simpl app; erewrite parseChars_simple by done; by rewrite IH1);
    try (rewrite <- app_assoc, parseChars_unicode, IH1 by lia; done).
  destruct (isLeadingSurrogate c) eqn:Hlead.
  - apply andb_prop in Hlead as [?%N.leb_le ?%N.leb_le].
    destruct s as [|d s]; [by rewrite parseChars_unicode by lia|].
    destruct (isTrailingSurrogate d) eqn:Htrail.
    + apply andb_prop in Htrail as [?%N.leb_le ?%N.leb_le].
      simpl app. rewrite !parseChars_literal by lia.
      erewrite IH; [done| |done]. simpl. lia.
    + by rewrite <- app_assoc, parseChars_unicode, IH1 by lia.
  - destruct (isTrailingSurrogate c) eqn:Htrail.
    + apply andb_prop in Htrail as [?%N.leb_le ?%N.leb_le].
      by rewrite <- app_assoc, parseChars_unicode, IH1 by lia.
    + simpl app. by rewrite parseChars_literal, IH1 by lia.
Qed.

Lemma parseChars_quoteJSONString s rest :
  parseChars (quoteChars s ++ [34] ++ rest) = Some (s, rest).
Proof. apply parseChars_quoteChars. Qed.

Lemma joinElements_cons x l :
  joinElements (x :: l)
  = match l with
    | [] => quoteJSONString x
    | _ :: _ => quoteJSONString x ++ 44 :: joinElements l
    end.
Proof. by destruct l. Qed.

(** Every element takes at least its two quotes. *)
Lemma joinElements_length l : (length l ≤ length (joinElements l))%nat.
Proof.
  induction l as [|x l IH]; [done|].
  rewrite joinElements_cons. unfold quoteJSONString.
  destruct l; simpl in *; rewrite ?length_app; simpl; lia.
Qed.

Lemma parseElements_joinElements x l rest fuel :
  (length (x :: l) ≤ fuel)%nat →
  parseElements fuel (joinElements (x :: l) ++ 93 :: rest)
  = Some (x :: l, rest).
Proof.
  revert x fuel. induction l as [|y l IH]; intros x fuel Hfuel;
    (destruct fuel as [|fuel]; [simpl in Hfuel; lia|]);
    rewrite joinElements_cons; unfold quoteJSONString.
  - change (parseElements (S fuel) ((34 :: quoteChars x ++ [34]) ++ 93 :: rest))
      with ('(x0, s2) ← parseChars ((quoteChars x ++ [34]) ++ 93 :: rest);
            match skipWS s2 with
            | d :: s3 =>
                if d =? 44 then
                  '(xs, s4) ← parseElements fuel s3; Some (x0 :: xs, s4)
                else if d =? 93 then Some ([x0], s3)
                else None
            | [] => None
            end).
    by rewrite <- app_assoc, parseChars_quoteJSONString.
  - change (parseElements (S fuel)
              (((34 :: quoteChars x ++ [34]) ++ 44 :: joinElements (y :: l))
               ++ 93 :: rest))
      with ('(x0, s2) ← parseChars (((quoteChars x ++ [34])
                                      ++ 44 :: joinElements (y :: l))
                                     ++ 93 :: rest);
            match skipWS s2 with
            | d :: s3 =>
                if d =? 44 then
                  '(xs, s4) ← parseElements fuel s3; Some (x0 :: xs, s4)
                else if d =? 93 then Some ([x0], s3)
                else None
            | [] => None
            end).
    rewrite <- !app_assoc, parseChars_quoteJSONString.
    cbn -[joinElements parseElements skipWS N.eqb].
    change (skipWS (44 :: ?s)) with (44 :: s). cbv iota.
    change (44 =? 44) with true. cbv iota.
    rewrite IH; [done|]. simpl in *. lia.
Qed.

(** Reading what [JSON.stringify] wrote gives the array back: the same
    strings in the same order. *)
Lemma JSON_parse_stringify (l : list jsstring) :
  JSON_parse (JSON_stringify l) = Some l.
Proof.
  destruct l as [|x l]; [done|].
  unfold JSON_stringify, JSON_parse.
  change (skipWS (91 :: ?s)) with (91 :: s). cbv iota.
  change (91 =? 91) with true. cbv iota.
  pose proof (joinElements_length (x :: l)) as Hlen.
  rewrite parseElements_joinElements
    by (rewrite length_app; simpl in *; lia).
  rewrite joinElements_cons. unfold quoteJSONString.
  by destruct l.
Qed.

(** What [JSON.stringify] writes is never the empty string. *)
Lemma JSON_stringify_truthy (l : list jsstring) :
  truthy (JSON_stringify l) = true.
Proof. done. Qed.

End Json.

(** ** Lists: popping the extra row *)

Lemma pop_firstn {A} (n : nat) (l : list A) :
  (if bool_decide (n < length (firstn (n + 1) l))%nat
   then (removelast (firstn (n + 1) l), last (firstn (n + 1) l))
   else (firstn (n + 1) l, None))
  = (firstn n l, if bool_decide (n < length l)%nat then l !! n else None).
Proof.
  rewrite length_take. rewrite Nat.add_1_r.
  destruct (decide (n < length l)%nat) as [Hlt|Hge].
  - rewrite !bool_decide_true by lia.
    rewrite removelast_firstn by done.
    rewrite last_lookup, length_take, Nat.min_l by lia. simpl.
    by rewrite lookup_take_lt by lia.
  - rewrite !bool_decide_false by lia.
    by rewrite !take_ge by lia.
Qed.

(** ** The order of the index *)










(** ** The list endpoint *)

Section Routes.

Variable tableScan : Table → list GrowthEntry.

#[local] Instance dateOrder_total o : Total (dateOrder o).
Proof. intros a b. destruct o; simpl; lia. Qed.

#[local] Instance dateOrder_trans o : Transitive (dateOrder o).
Proof. intros a b c. destruct o; simpl; lia. Qed.

Lemma ordered_sorted o table :
  StronglySorted (dateOrder o) (ordered tableScan o table).
Proof. apply StronglySorted_merge_sort; apply _. Qed.

Lemma ordered_scan o table : ordered tableScan o table ≡ₚ tableScan table.
Proof. apply merge_sort_Permutation. Qed.

(** The cursor's row splits the rows: no row before it has the cursor's
    id, and the rows from the cursor on start with the row of that id. *)
Lemma fromCursor_split c rows :
  ∃ before,
    rows = before ++ fromCursor c rows
    ∧ (c ∉ (g_id <$> before))
    ∧ (fromCursor c rows = []
       ∨ ∃ r rest, fromCursor c rows = r :: rest ∧ g_id r = c).
Proof.
  induction rows as [|r rows (before & Hrows & Hnot & Hhead)].
  - exists []. split; [done|]. split; [|by left].
    simpl. apply not_elem_of_nil.
  - simpl. case_bool_decide as Hid.
    + exists []. split; [done|]. split; [apply not_elem_of_nil|].
      right. by exists r, rows.
    + exists (r :: before). split; [by rewrite Hrows at 1|].
      split; [|done]. rewrite fmap_cons, not_elem_of_cons. by split.
Qed.

(** With a primary key, the cursor's row is the only one of its id. *)
Lemma fromCursor_at c before r after :
  NoDup (g_id <$> before ++ r :: after) → g_id r = c →
  fromCursor c (before ++ r :: after) = r :: after.
Proof.
  intros Hnd Hr. induction before as [|b before IH]; simpl.
  - by rewrite bool_decide_true.
  - simpl in Hnd. apply NoDup_cons in Hnd as [Hb Hnd].
    rewrite bool_decide_false; [by apply IH|].
    intros Hbc. apply Hb. rewrite Hbc, <- Hr, fmap_app, fmap_cons.
    apply elem_of_app. right. apply elem_of_cons. by left.
Qed.

(** The rows that follow the cursor are a suffix of the result set. *)
Lemma rowsAfter_suffix table c :
  ∃ before, ordered tableScan desc table
            = before ++ rowsAfter tableScan table c.
Proof.
  destruct c as [c|]; simpl; [|by exists []].
  destruct (fromCursor_split c (ordered tableScan desc table))
    as (before & Hsplit & _ & _).
  destruct (fromCursor c (ordered tableScan desc table)) as [|r rest] eqn:E.
  - exists before. by rewrite Hsplit at 1.
  - exists (before ++ [r]). by rewrite <- app_assoc.
Qed.

(** The rows fetched: with one row more than the page holds asked for, the
    first [take + 1] of the rows that follow the cursor. *)
Lemma findMany_rowsAfter take table searchParams :
  findMany tableScan table
    (findManyArgs take (searchParams_get (str "cursor") searchParams))
  = firstn (take + 1) (rowsAfter tableScan table (cursorOf searchParams)).
Proof.
  unfold cursorOf, findManyArgs.
  destruct (searchParams_get (str "cursor") searchParams) as [c|];
    [destruct (truthy c)|]; done.
Qed.

(** The handler, read through the rows that follow the cursor: the page is
    the first [take] of them, decoded, and [nextCursor] is the id of the
    row after those, when there is one. *)
Lemma GET_take_rowsAfter take table searchParams :
  GET_take tableScan take table searchParams
  = (let rows := rowsAfter tableScan table (cursorOf searchParams) in
     es ← mapM decodeRow (firstn take rows);
     Some (mkPage es
             (if bool_decide (take < length rows)%nat
              then g_id <$> rows !! take else None))).
Proof.
  unfold GET_take. rewrite findMany_rowsAfter. cbv zeta.
  set (rows := rowsAfter _ _ _).
  pose proof (pop_firstn take rows) as Hpop.
  destruct (bool_decide (take < length (firstn (take + 1) rows))%nat);
    apply pair_equal_spec in Hpop as [-> Hlast].
  - rewrite Hlast. by destruct (bool_decide (take < length rows)%nat).
  - destruct (bool_decide (take < length rows)%nat); [|done].
    by rewrite <- Hlast.
Qed.

Lemma decodeRow_fields r e :
  decodeRow r = Some e →
  id e = g_id r ∧ date e = g_date r ∧ text e = g_text r
  ∧ effort e = g_effort r.
Proof.
  unfold decodeRow. intros He.
  destruct (if truthy (g_tags r) then JSON_parse (g_tags r) else Some [])
    as [decoded|]; [|done].
  by injection He as <-.
Qed.

Lemma mapM_decodeRow_ids rows es :
  mapM decodeRow rows = Some es → id <$> es = g_id <$> rows.
Proof.
  rewrite mapM_Some. induction 1 as [|r e rows es He _ IH]; [done|].
  apply decodeRow_fields in He as (He & _).
  rewrite !fmap_cons. by f_equal.
Qed.

Lemma mapM_decodeRow_sorted rows es :
  mapM decodeRow rows = Some es →
  StronglySorted (dateOrder desc) rows → dateDescending es.
Proof.
  rewrite mapM_Some. unfold dateDescending.
  induction 1 as [|r e rows es He Hall IH]; intros Hsorted; [constructor|].
  apply StronglySorted_inv in Hsorted as [Hrest Hhead].
  constructor; [by apply IH|].
  apply decodeRow_fields in He as (_ & He & _).
  clear IH Hrest. induction Hall as [|r' e' rows es He' _ IH]; [done|].
  apply Forall_cons in Hhead as [Hr' Hhead].
  constructor; [|by apply IH].
  apply decodeRow_fields in He' as (_ & He' & _).
  simpl in Hr'. by rewrite He, He'.
Qed.


(** What a successful [GET] hands out: the page, and the cursor. *)
Lemma GET_take_Some take table searchParams page :
  GET_take tableScan take table searchParams = Some page →
  mapM decodeRow
    (firstn take (rowsAfter tableScan table (cursorOf searchParams)))
  = Some (entries page)
  ∧ nextCursor page
    = g_id <$> rowsAfter tableScan table (cursorOf searchParams) !! take.
Proof.
  rewrite GET_take_rowsAfter. cbv zeta.
  set (rows := rowsAfter _ _ _).
  destruct (mapM decodeRow (firstn take rows)) as [es|]; [|done].
  simpl. intros [= <-]. simpl. split; [done|].
  case_bool_decide as Hlt; [done|].
  by rewrite lookup_ge_None_2 by lia.
Qed.

(** C4.  The query asks for one row more than the page holds, so at most
    [take + 1] rows are fetched.  The page is the first [take] rows that
    follow the cursor, so it has at most [take] entries; [nextCursor] is
    the id of the row after those (the extra row, which is taken off the
    page) and is absent when there is no such row; so a cursor is returned
    exactly when rows remain beyond the page.  [GET] is the case
    [take = 20]. *)
Theorem GET_take_page_and_nextCursor take table searchParams page :
  GET_take tableScan take table searchParams = Some page →
  let rows := rowsAfter tableScan table (cursorOf searchParams) in
  findMany tableScan table
    (findManyArgs take (searchParams_get (str "cursor") searchParams))
  = firstn (take + 1) rows
  ∧ mapM decodeRow (firstn take rows) = Some (entries page)
  ∧ (length (entries page) ≤ take)%nat
  ∧ nextCursor page = g_id <$> rows !! take
  ∧ (is_Some (nextCursor page) ↔ (length (entries page) < length rows)%nat).
Proof.
  intros [Hpage Hnext]%GET_take_Some rows. fold rows in Hpage, Hnext.
  pose proof (length_mapM _ _ _ Hpage) as Hlen. rewrite length_take in Hlen.
  split; [apply findMany_rowsAfter|].
  split; [done|]. split; [lia|]. split; [done|].
  rewrite Hnext, fmap_is_Some, lookup_lt_is_Some. lia.
Qed.



Hypothesis tableScan_perm : ∀ table, tableScan table ≡ₚ table.

Lemma ordered_perm o table : ordered tableScan o table ≡ₚ table.
Proof. by rewrite ordered_scan. Qed.

Lemma ordered_NoDup o table :
  primaryKey table → NoDup (g_id <$> ordered tableScan o table).
Proof. unfold primaryKey. by rewrite ordered_perm. Qed.

(** C5.  A request with the cursor [X] is served the rows strictly after
    the row of id [X]: no entry of its page has the id [X], and the page is
    made of the first rows that follow that row in the result set.  The
    table has a primary key on [id]; [cursorOf] holds the cursor that the
    request carries. *)
Theorem GET_take_cursor_is_exclusive take table searchParams X page :
  primaryKey table →
  cursorOf searchParams = Some X →
  GET_take tableScan take table searchParams = Some page →
  (X ∉ (id <$> entries page))
  ∧ ∀ before r after,
      ordered tableScan desc table = before ++ r :: after → g_id r = X →
      mapM decodeRow (firstn take after) = Some (entries page).
Proof.
  intros Hkey HX [Hpage _]%GET_take_Some. rewrite HX in Hpage.
  pose proof (ordered_NoDup desc table Hkey) as Hnd.
  simpl in Hpage. split.
  - rewrite (mapM_decodeRow_ids _ _ Hpage).
    destruct (fromCursor_split X (ordered tableScan desc table))
      as (before & Hsplit & _ & [Hnil | (r & rest & Hcons & Hr)]).
    + rewrite Hnil. simpl. rewrite take_nil. apply not_elem_of_nil.
    + rewrite Hcons in Hsplit |- *. simpl.
      rewrite Hsplit, fmap_app, fmap_cons in Hnd.
      apply NoDup_app in Hnd as (_ & _ & Hnd).
      apply NoDup_cons in Hnd as [Hnot _].
      intros Hin. apply Hnot. rewrite Hr.
      apply list_elem_of_fmap in Hin as (row & -> & Hin).
      apply list_elem_of_fmap. exists row. split; [done|].
      by apply (subseteq_take take rest).
  - intros before r after Hordered Hr.
    rewrite Hordered in Hnd, Hpage.
    by rewrite (fromCursor_at _ _ _ _ Hnd Hr) in Hpage.
Qed.

(** Every entry of a page is the decoding of a row of the table. *)
Lemma GET_take_entries_from_table take table searchParams page e :
  GET_take tableScan take table searchParams = Some page →
  e ∈ entries page →
  ∃ r, r ∈ table ∧ decodeRow r = Some e.
Proof.
  intros [Hpage _]%GET_take_Some Hin.
  apply mapM_Some in Hpage.
  apply list_elem_of_lookup_1 in Hin as [i Hi].
  destruct (Forall2_lookup_r _ _ _ _ _ Hpage Hi) as (r & Hr & Hdec).
  exists r. split; [|done].
  apply list_elem_of_lookup_2, (subseteq_take take) in Hr.
  destruct (rowsAfter_suffix table (cursorOf searchParams))
    as [before Hordered].
  rewrite <- (ordered_perm desc table), Hordered.
  apply elem_of_app. by right.
Qed.

End Routes.

(** The [page] parameters of a request do not reach the cursor. *)
Lemma searchParams_get_withoutPage searchParams :
  searchParams_get (str "cursor") (withoutPage searchParams)
  = searchParams_get (str "cursor") searchParams.
Proof.
  unfold withoutPage.
  induction searchParams as [|[k v] rest IH]; [done|].
  rewrite filter_cons. simpl. case_decide as Hpage; simpl.
  - by rewrite IH.
  - rewrite IH, bool_decide_false; [done|]. by rewrite Hpage.
Qed.

Lemma GET_take_cursor_only tableScan take table searchParams1 searchParams2 :
  searchParams_get (str "cursor") searchParams1
  = searchParams_get (str "cursor") searchParams2 →
  GET_take tableScan take table searchParams1
  = GET_take tableScan take table searchParams2.
Proof. unfold GET_take. by intros ->. Qed.

(** C10.  The response of [GET] is a function of the table and of the
    [cursor] parameter alone, and its page has at most 20 entries.  Any
    other parameter is ignored: requests that differ only in [page]
    parameters get the same response, and so every request that the page
    component sends ([getKey], which sets [page] and never [cursor]) gets
    the response of the request with no parameter. *)
Theorem GET_reads_only_the_cursor tableScan table searchParams1 searchParams2 :
  searchParams_get (str "cursor") searchParams1
  = searchParams_get (str "cursor") searchParams2 →
  GET tableScan table searchParams1 = GET tableScan table searchParams2
  ∧ (∀ page, GET tableScan table searchParams1 = Some page →
             (length (entries page) ≤ 20)%nat)
  ∧ (∀ searchParams,
       withoutPage searchParams = withoutPage searchParams1 →
       GET tableScan table searchParams = GET tableScan table searchParams1)
  ∧ (∀ index, GET tableScan table (getKey index) = GET tableScan table []).
Proof.
  intros Hcursor. unfold GET. split; [by apply GET_take_cursor_only|].
  split; [|split].
  - intros page Hpage.
    apply GET_take_Some in Hpage as [Hpage _].
    apply length_mapM in Hpage. rewrite length_take in Hpage. lia.
  - intros searchParams Hsame. apply GET_take_cursor_only.
    by rewrite <- (searchParams_get_withoutPage searchParams), Hsame,
      searchParams_get_withoutPage.
  - intros index. by apply GET_take_cursor_only.
Qed.

(** ** Creation *)

Lemma not_text_true text :
  not_text text = true ↔ text = None ∨ text = Some [].
Proof.
  destruct text as [[|c s]|]; simpl; unfold truthy; simpl;
    split; intros H; try done; auto; by destruct H.
Qed.

Lemma not_effort_true effort :
  not_effort effort = true ↔ effort = None ∨ effort = Some 0.
Proof.
  destruct effort as [n|]; simpl; [|by split; auto].
  rewrite bool_decide_eq_true. split.
  - intros ->. by right.
  - by intros [|[= ->]].
Qed.

(** The guard of [POST] answers 400 and leaves the table alone. *)
Lemma POST_rejected table newId now body :
  not_text (body_text body) || not_effort (body_effort body) = true →
  POST table newId now body = (table, BadRequest).
Proof. unfold POST. by intros ->. Qed.

(** Past the guard, a fresh id gives a new row at the end of the table and
    the response 201 with the entry of that row. *)
Lemma POST_created table newId now t n ts :
  t ≠ [] → n ≠ 0 → newId ∉ (g_id <$> table) →
  POST table newId now (mkBody (Some t) (Some n) ts)
  = (table ++ [mkRow newId now t n (JSON_stringify (default [] ts)) now now],
     Created (mkEntry newId now t n (default [] ts) now now)).
Proof.
  intros Ht Hn Hfresh. unfold POST, prisma_create. simpl.
  unfold truthy. rewrite !bool_decide_false by done. simpl.
  by rewrite JSON_parse_stringify.
Qed.

(** Past the guard, an id that is taken gives an exception and no write. *)
Lemma POST_collision table newId now body :
  not_text (body_text body) || not_effort (body_effort body) = false →
  newId ∈ (g_id <$> table) →
  POST table newId now body = (table, ServerError).
Proof.
  intros Hguard Hin. unfold POST, prisma_create. rewrite Hguard.
  by rewrite bool_decide_true.
Qed.

(** The response is 400 exactly when the guard fires. *)
Lemma POST_BadRequest_iff table newId now body :
  (POST table newId now body).2 = BadRequest
  ↔ not_text (body_text body) || not_effort (body_effort body) = true.
Proof.
  split; [|by intros ->%(POST_rejected table newId now)].
  destruct (not_text (body_text body) || not_effort (body_effort body))
    eqn:Hguard; [done|].
  unfold POST. rewrite Hguard. unfold prisma_create.
  case_bool_decide; [done|]. simpl.
  by rewrite JSON_parse_stringify.
Qed.

(** What [validateInput] refuses. *)
Lemma validateInput_refuses text :
  validateInput text ≠ None ↔ trim text = [] ∨ (500 < length text)%nat.
Proof.
  unfold validateInput, truthy. rewrite negb_involutive.
  case_bool_decide as Htrim; [by split; auto|].
  case_bool_decide as Hlen; split; try done; auto.
  by intros [|].
Qed.

(** C2, as the code has it.  [POST] answers 400 exactly when [text] is
    missing or empty or [effort] is missing or zero, and then the table is
    as it was.  Text of white space only, and text of more than 500 code
    units, are turned down by [validateInput] in the form, where
    [addEntry] returns before any request is made. *)
Theorem POST_rejects_missing_text_or_effort table newId now body :
  ((POST table newId now body).2 = BadRequest
   ↔ (body_text body = None ∨ body_text body = Some [])
     ∨ (body_effort body = None ∨ body_effort body = Some 0))
  ∧ ((POST table newId now body).2 = BadRequest →
     (POST table newId now body).1 = table)
  ∧ (∀ text, validateInput text ≠ None
             ↔ trim text = [] ∨ (500 < length text)%nat)
  ∧ (∀ form message,
       validateInput (form_text form) = Some message →
       addEntry table newId now form = (table, Invalid message)).
Proof.
  split; [|split; [|split]].
  - etrans; [apply POST_BadRequest_iff|].
    by rewrite orb_true_iff, not_text_true, not_effort_true.
  - intros Hguard%POST_BadRequest_iff.
    by rewrite (POST_rejected table newId now body Hguard).
  - apply validateInput_refuses.
  - intros form message Hinvalid. unfold addEntry. by rewrite Hinvalid.
Qed.

(** An entry that [POST] returns has the effort of the request, and that
    effort is not zero. *)
Lemma POST_Created_effort table newId now body table' e :
  POST table newId now body = (table', Created e) →
  body_effort body = Some (effort e) ∧ effort e ≠ 0.
Proof.
  intros H.
  destruct (not_text (body_text body) || not_effort (body_effort body))
    eqn:Hguard; [by rewrite POST_rejected in H|].
  unfold POST, prisma_create in H. rewrite Hguard in H.
  case_bool_decide; [done|]. simpl in H.
  rewrite JSON_parse_stringify in H. injection H as _ <-. simpl.
  apply orb_false_elim in Hguard as [_ Heffort].
  destruct (body_effort body) as [n|]; [|done]. simpl in *.
  by case_bool_decide.
Qed.

(** C8, as the code has it.  Of [effort], [POST] checks only that it is
    there and not zero, so the effort of an entry it accepts is that of
    the request and is not zero; it keeps to no range: with a text and a
    fresh id, every value of the column type other than zero (7 or -2,
    say) is accepted and stored as it is, in the row and in the entry
    returned. *)
Theorem POST_checks_effort_for_zero_only table newId now t ts n :
  t ≠ [] → newId ∉ (g_id <$> table) → Int32 n →
  POST table newId now (mkBody (Some t) None ts) = (table, BadRequest)
  ∧ POST table newId now (mkBody (Some t) (Some 0) ts) = (table, BadRequest)
  ∧ (n ≠ 0 →
     ∃ row e,
       POST table newId now (mkBody (Some t) (Some n) ts)
       = (table ++ [row], Created e)
       ∧ g_effort row = n ∧ effort e = n)
  ∧ (∀ body table' e,
       POST table newId now body = (table', Created e) →
       body_effort body = Some (effort e) ∧ effort e ≠ 0).
Proof.
  intros Ht Hfresh _.
  split; [apply POST_rejected; simpl; apply orb_true_r|].
  split; [apply POST_rejected; simpl; apply orb_true_r|].
  split; [|apply POST_Created_effort].
  intros Hn. eexists _, _. by rewrite POST_created.
Qed.


(** ** Following the cursors *)

Lemma mapM_decodeRow_app rows1 rows2 :
  mapM decodeRow (rows1 ++ rows2)
  = (es1 ← mapM decodeRow rows1;
     es2 ← mapM decodeRow rows2;
     Some (es1 ++ es2)).
Proof.
  induction rows1 as [|r rows1 IH]; simpl.
  - by destruct (mapM decodeRow rows2).
  - destruct (decodeRow r); simpl; [|done]. rewrite IH.
    destruct (mapM decodeRow rows1); simpl; [|done].
    by destruct (mapM decodeRow rows2).
Qed.

Section Protocol.

Variable tableScan : Table → list GrowthEntry.
Hypothesis tableScan_perm : ∀ table, tableScan table ≡ₚ table.

(** The request with the cursor that a page returned is served the rows
    after the row that was taken off that page: the rows from the
    twenty-second on. *)
Lemma rowsAfter_nextCursor table c r :
  primaryKey table → Forall (fun row => g_id row ≠ []) table →
  rowsAfter tableScan table c !! 20%nat = Some r →
  rowsAfter tableScan table (cursorOf [(str "cursor", g_id r)])
  = skipn 21 (rowsAfter tableScan table c).
Proof.
  intros Hkey Hids Hr.
  destruct (rowsAfter_suffix tableScan table c) as [before Hordered].
  pose proof (ordered_NoDup tableScan tableScan_perm desc table Hkey) as Hnd.
  rewrite <- (take_drop_middle _ _ _ Hr), app_assoc in Hordered.
  assert (Htruthy : truthy (g_id r) = true).
  { unfold truthy. rewrite bool_decide_false; [done|].
    rewrite Forall_forall in Hids. apply Hids.
    rewrite <- (ordered_perm tableScan tableScan_perm desc table), Hordered.
    apply elem_of_app. right. apply elem_of_cons. by left. }
  unfold cursorOf. simpl searchParams_get. cbv iota beta.
  rewrite Htruthy. simpl rowsAfter.
  rewrite Hordered in Hnd |- *.
  by rewrite (fromCursor_at _ _ _ _ Hnd eq_refl).
Qed.

(** What following the cursors returns: the rows of [servedRows], decoded.
    Of the rows that follow the first cursor, the 21st, the 42nd and so on
    are left out. *)
Lemma listAll_servedRows fuel table searchParams :
  primaryKey table → Forall (fun row => g_id row ≠ []) table →
  listAll tableScan fuel table searchParams
  = (rows ← servedRows fuel
              (rowsAfter tableScan table (cursorOf searchParams));
     mapM decodeRow rows).
Proof.
  intros Hkey Hids. revert searchParams.
  induction fuel as [|fuel IH]; intros searchParams; [done|].
  simpl. unfold GET. rewrite GET_take_rowsAfter. cbv zeta.
  set (rows := rowsAfter tableScan table (cursorOf searchParams)).
  case_bool_decide as Hmore.
  - destruct (lookup_lt_is_Some_2 rows 20 Hmore) as [r Hr].
    rewrite Hr. simpl.
    destruct (mapM decodeRow (firstn 20 rows)) as [es|] eqn:Hes; simpl.
    + rewrite IH, (rowsAfter_nextCursor _ _ _ Hkey Hids Hr). fold rows.
      destruct (servedRows fuel (skipn 21 rows)) as [rest|]; simpl; [|done].
      rewrite mapM_decodeRow_app, Hes. simpl.
      by destruct (mapM decodeRow rest).
    + destruct (servedRows fuel (skipn 21 rows)) as [rest|]; simpl; [|done].
      by rewrite mapM_decodeRow_app, Hes.
  - simpl. by destruct (mapM decodeRow (firstn 20 rows)) eqn:Hes;
      rewrite take_ge in Hes by lia; rewrite Hes.
Qed.

End Protocol.

(** X21.  A table that fits one page is listed whole, in date order, by
    the first request. *)
Lemma listAll_one_page tableScan fuel table :
  (length (tableScan table) ≤ 20)%nat →
  listAll tableScan (S fuel) table []
  = mapM decodeRow (ordered tableScan desc table).
Proof.
  intros Hlen. simpl. unfold GET. rewrite GET_take_rowsAfter.
  change (cursorOf []) with (@None jsstring). simpl rowsAfter. cbv zeta.
  assert (Hlen' : (length (ordered tableScan desc table) ≤ 20)%nat).
  { unfold ordered. by rewrite merge_sort_Permutation. }
  rewrite take_ge, bool_decide_false by lia.
  by destruct (mapM decodeRow (ordered tableScan desc table)).
Qed.

(** The rows served are rows of the list they are served from. *)
Lemma servedRows_subseteq fuel rows out :
  servedRows fuel rows = Some out → out ⊆ rows.
Proof.
  revert rows out. induction fuel as [|fuel IH]; intros rows out; [done|].
  simpl. case_bool_decide as Hmore; [|by intros [= ->]].
  destruct (servedRows fuel (skipn 21 rows)) as [rest|] eqn:Hrest; [|done].
  simpl. intros [= <-] row [Hrow|Hrow]%elem_of_app.
  - by apply (subseteq_take 20 rows).
  - by apply (subseteq_drop 21 rows), (IH _ _ Hrest).
Qed.

(** X22.  In a table of more than 20 rows, the twenty-first row of the
    result set is on no page, however many requests are made. *)
Lemma listAll_never_serves_row_21 tableScan fuel table r es :
  (∀ table, tableScan table ≡ₚ table) →
  primaryKey table → Forall (fun row => g_id row ≠ []) table →
  ordered tableScan desc table !! 20%nat = Some r →
  listAll tableScan fuel table [] = Some es →
  g_id r ∉ (id <$> es).
Proof.
  intros Hperm Hkey Hids Hr. rewrite (listAll_servedRows _ Hperm) by done.
  change (cursorOf []) with (@None jsstring). simpl rowsAfter.
  pose proof (ordered_NoDup tableScan Hperm desc table Hkey) as Hnd.
  set (rows := ordered tableScan desc table) in *.
  destruct fuel as [|fuel]; [done|]. simpl.
  rewrite bool_decide_true by (by apply lookup_lt_Some in Hr).
  destruct (servedRows fuel (skipn 21 rows)) as [rest|] eqn:Hrest; [|done].
  simpl. intros ->%mapM_decodeRow_ids.
  rewrite <- (take_drop_middle _ _ _ Hr), fmap_app, fmap_cons in Hnd.
  apply NoDup_app in Hnd as (_ & Hfirst & Hnd).
  apply NoDup_cons in Hnd as [Hlater _].
  rewrite fmap_app. intros [Hin|Hin]%elem_of_app.
  - apply (Hfirst _ Hin). apply elem_of_cons. by left.
  - apply Hlater.
    apply list_elem_of_fmap in Hin as (row & -> & Hin).
    apply list_elem_of_fmap_2. by apply (servedRows_subseteq _ _ _ Hrest).
Qed.

(** * The properties at concrete inputs *)

Lemma insertionScan_perm table : insertionScan table ≡ₚ table.
Proof. reflexivity. Qed.

Lemma dailyTable_primaryKey : primaryKey (dailyTable 21).
Proof. unfold primaryKey. apply (bool_decide_unpack _). by vm_compute. Qed.


(** In New York, late in the evening of the day the clocks went back: an
    entry of that day and one of the day before, 48 hours apart, make a
    streak of 2. *)
Lemma calcStreak_acrossTheChange :
  Zoned.midnightsKept Zoned.newYork
  ∧ Zoned.calcStreak Zoned.newYork lateEvening acrossTheChange = 2%nat
  ∧ (∀ i e, acrossTheChange !! i = Some e → (i < 2)%nat →
            Zoned.onExpectedDay Zoned.newYork lateEvening i e)
  ∧ Zoned.localDay Zoned.newYork lateEvening = 20394.
Proof.
  split; [exact newYork_midnightsKept|].
  assert (Hn : Zoned.calcStreak Zoned.newYork lateEvening acrossTheChange
               = 2%nat) by (vm_compute; reflexivity).
  split; [exact Hn|]. split; [|vm_compute; reflexivity].
  destruct (calcStreak_longest_matching_prefix Zoned.newYork lateEvening
              acrossTheChange) as (_ & _ & Hbelow & _ & _ & Hdays).
  rewrite Hn in Hbelow. intros i e Hi Hlt.
  apply (Hdays newYork_midnightsKept), (Hbelow i e Hi Hlt).
Defined.

(** The streaks of entries of today and of the two days before, of today
    and of three days ago, of two days ago alone, and of no entry. *)
Lemma calcStreak_samples :
  (calcStreak tokyo noon <$> mapM decodeRow (dailyRow <$> [0; 1; 2]%nat))
  = Some 3%nat
  ∧ (calcStreak tokyo noon <$> mapM decodeRow (dailyRow <$> [0; 3]%nat))
    = Some 1%nat
  ∧ (calcStreak tokyo noon <$> mapM decodeRow [dailyRow 2]) = Some 0%nat
  ∧ calcStreak tokyo noon [] = 0%nat.
Proof. repeat split; by vm_compute. Qed.

(** The first page of a table of 21 daily entries: 20 entries, and the id
    of the twenty-first as the cursor. *)
Lemma GET_first_page_of_21 :
  ∃ page,
    GET insertionScan (dailyTable 21) [] = Some page
    ∧ (length (entries page) ≤ 20)%nat
    ∧ nextCursor page = Some (toString 20)
    ∧ (length (entries page)
       < length (rowsAfter insertionScan (dailyTable 21) None))%nat.
Proof.
  assert (Hpage : {page | GET_take insertionScan 20 (dailyTable 21) []
                          = Some page})
    by (eexists; vm_compute; reflexivity).
  destruct Hpage as [page Hpage]. exists page.
  split; [exact Hpage|].
  destruct (GET_take_page_and_nextCursor insertionScan 20 (dailyTable 21)
              [] page Hpage) as (_ & _ & Hlen & Hnext & Hmore).
  split; [exact Hlen|]. split.
  - rewrite Hnext. vm_compute. reflexivity.
  - apply Hmore. rewrite Hnext. vm_compute. by eexists.
Defined.

(** With the cursor on the entry of id 5, a table of 21 daily entries is
    served from the entry of id 6 on, and no entry of the page has the id
    5. *)
Lemma GET_after_cursor_5 :
  ∃ page,
    GET insertionScan (dailyTable 21) [(str "cursor", toString 5)]
    = Some page
    ∧ (toString 5 ∉ (id <$> entries page))
    ∧ mapM decodeRow (firstn 20 (dailyRow <$> seq 6 15))
      = Some (entries page).
Proof.
  assert (Hpage : {page | GET_take insertionScan 20 (dailyTable 21)
                            [(str "cursor", toString 5)] = Some page})
    by (eexists; vm_compute; reflexivity).
  destruct Hpage as [page Hpage]. exists page.
  split; [exact Hpage|].
  destruct (GET_take_cursor_is_exclusive insertionScan insertionScan_perm
              20 (dailyTable 21) [(str "cursor", toString 5)] (toString 5)
              page dailyTable_primaryKey eq_refl Hpage) as [Hnot Hafter].
  split; [exact Hnot|].
  apply (Hafter (dailyRow <$> seq 0 5) (dailyRow 5)
           (dailyRow <$> seq 6 15)); by vm_compute.
Defined.


(** Against C2 as stated: [POST] accepts a text of three spaces and a text
    of 501 code units, and writes a row for each. *)
Lemma POST_accepts_blank_and_long_text :
  trim (str "   ") = []
  ∧ POST [] (str "c1") noon (mkBody (Some (str "   ")) (Some 3) (Some []))
    = ([mkRow (str "c1") noon (str "   ") 3 (JSON_stringify []) noon noon],
       Created (mkEntry (str "c1") noon (str "   ") 3 [] noon noon))
  ∧ length (replicate 501 120%N) = 501%nat
  ∧ POST [] (str "c1") noon
      (mkBody (Some (replicate 501 120%N)) (Some 3) (Some []))
    = ([mkRow (str "c1") noon (replicate 501 120%N) 3 (JSON_stringify [])
          noon noon],
       Created (mkEntry (str "c1") noon (replicate 501 120%N) 3 [] noon
                  noon)).
Proof. repeat split; by vm_compute. Qed.

(** Against C8 as stated: [POST] accepts the effort 7. *)
Lemma POST_accepts_effort_7 :
  ∃ table e,
    POST [] (str "c1") noon (mkBody (Some (str "ok")) (Some 7) (Some []))
    = (table, Created e)
    ∧ effort e = 7 ∧ ¬ (1 ≤ effort e ≤ 5).
Proof.
  eexists _, _. split; [vm_compute; reflexivity|]. simpl. lia.
Qed.

(** No effort, the effort 0 and the effort -2, on an empty table. *)
Lemma POST_effort_minus_2 :
  POST [] (str "c1") noon (mkBody (Some (str "ok")) None (Some []))
  = ([], BadRequest)
  ∧ POST [] (str "c1") noon (mkBody (Some (str "ok")) (Some 0) (Some []))
    = ([], BadRequest)
  ∧ (-2 ≠ 0 →
     ∃ row e,
       POST [] (str "c1") noon
         (mkBody (Some (str "ok")) (Some (-2)) (Some []))
       = ([] ++ [row], Created e)
       ∧ g_effort row = -2 ∧ effort e = -2)
  ∧ (∀ body table' e,
       POST [] (str "c1") noon body = (table', Created e) →
       body_effort body = Some (effort e) ∧ effort e ≠ 0).
Proof.
  apply (POST_checks_effort_for_zero_only [] (str "c1") noon (str "ok")
           (Some []) (-2)).
  - discriminate.
  - apply not_elem_of_nil.
  - unfold Int32. lia.
Defined.


(** The requests of the page component for its first and second page get
    one response. *)
Lemma GET_page_1_and_page_2 :
  GET insertionScan (dailyTable 21) (getKey 0)
  = GET insertionScan (dailyTable 21) (getKey 1).
Proof.
  exact (proj1 (GET_reads_only_the_cursor insertionScan (dailyTable 21)
                  (getKey 0) (getKey 1) eq_refl)).
Defined.

(** The handler with a page of 2 on entries of today, of the two days
    before and of five days ago: the first page holds the entries of today
    and of yesterday and names the entry of two days ago as the cursor; the
    page after that cursor holds the entry of five days ago alone.  The
    streak over both pages is 2: the entry of two days ago is on neither. *)
Lemma GET_take_2_scenario :
  GET_take insertionScan 2 scenarioTable []
  = mapM decodeRow (dailyRow <$> [0; 1]%nat)
    ≫= (fun es => Some (mkPage es (Some (toString 2))))
  ∧ GET_take insertionScan 2 scenarioTable [(str "cursor", toString 2)]
    = mapM decodeRow [dailyRow 5] ≫= (fun es => Some (mkPage es None))
  ∧ (es ← mapM decodeRow (dailyRow <$> [0; 1; 5]%nat);
     Some (calcStreak tokyo noon es)) = Some 2%nat.
Proof. repeat split; by vm_compute. Qed.

(** C3, at a table of 21 entries of 21 days.  The first request returns
    the 20 newest entries and, as the cursor, the id of the oldest one,
    which it took off the page; the request with that cursor skips the
    cursor's row and returns an empty page and no cursor.  The pages
    together hold 20 of the 21 entries: the oldest entry is in the table
    and on no page. *)
Theorem listAll_misses_the_cursor_row :
  GET insertionScan (dailyTable 21) []
  = mapM decodeRow (dailyRow <$> seq 0 20)
    ≫= (fun es => Some (mkPage es (Some (toString 20))))
  ∧ GET insertionScan (dailyTable 21) [(str "cursor", toString 20)]
    = Some (mkPage [] None)
  ∧ listAll insertionScan 21 (dailyTable 21) []
    = mapM decodeRow (dailyRow <$> seq 0 20)
  ∧ (∃ es, listAll insertionScan 21 (dailyTable 21) [] = Some es
           ∧ length es = 20%nat
           ∧ toString 20 ∉ (id <$> es))
  ∧ length (dailyTable 21) = 21%nat
  ∧ toString 20 ∈ (g_id <$> dailyTable 21).
Proof.
  split; [by vm_compute|]. split; [by vm_compute|]. split; [by vm_compute|].
  split; [|split; [done|]].
  - eexists. split; [vm_compute; reflexivity|]. split; [done|].
    apply (bool_decide_unpack _). by vm_compute.
  - apply (bool_decide_unpack _). by vm_compute.
Qed.

(** * Further properties *)

(** ** The streak over the loaded entries *)

Section StreakLoaded.

Variable tzOffset : Z.








End StreakLoaded.

(** X2.  In a zone that keeps its midnights, whatever its transitions, the
    streak is 0 exactly when nothing is loaded or the first entry is not
    of today's local calendar day. *)
Theorem calcStreak_zero_in_zone (zone : Zoned.Zone) (now : Z)
  (es : list Entry) :
  Zoned.midnightsKept zone →
  Zoned.calcStreak zone now es = 0%nat
  ↔ es = []
    ∨ ∃ e rest, es = e :: rest
                ∧ Zoned.localDay zone (date e) ≠ Zoned.localDay zone now.
Proof.
  intros Hzone. rewrite zoned_calcStreak_unfold.
  destruct es as [|e rest]; simpl.
  - split; [by left|done].
  - case_bool_decide as Hday.
    + rewrite zoned_for_acc. apply (zoned_comparison zone Hzone) in Hday.
      split; [lia|]. intros [|(e' & rest' & [= <- <-] & Hne)]; [done|].
      simpl in Hday. lia.
    + split; [|done]. intros _. right. exists e, rest. split; [done|].
      intros Heq. apply Hday, (zoned_comparison zone Hzone). simpl. lia.
Qed.

(** ** Trimming and splitting *)

(** [trimStart] takes a run of white space off the front and stops at the
    first code unit that is none. *)
Lemma trimStart_split s :
  ∃ ws, s = ws ++ trimStart s ∧ allWhiteSpace ws
        ∧ ∀ c, head (trimStart s) = Some c → isWhiteSpace c = false.
Proof.
  induction s as [|c s (ws & Hs & Hws & Hhead)].
  - exists []. split; [done|]. split; [constructor|done].
  - simpl. destruct (isWhiteSpace c) eqn:Hc.
    + exists (c :: ws). split; [by rewrite Hs at 1|].
      split; [by constructor|done].
    + exists []. split; [done|]. split; [constructor|].
      by intros ? [= <-].
Qed.

Lemma trimStart_fixed s :
  (∀ c, head s = Some c → isWhiteSpace c = false) → trimStart s = s.
Proof. destruct s as [|c s]; [done|]. intros H. simpl. by rewrite H. Qed.

Lemma trimStart_nil s : trimStart s = [] ↔ allWhiteSpace s.
Proof.
  unfold allWhiteSpace. induction s as [|c s IH]; [done|]. simpl.
  rewrite Forall_cons. destruct (isWhiteSpace c); [|by split; [|intros []]].
  rewrite IH. by split; [|intros []].
Qed.

(** [trimEnd] does the same at the end. *)
Lemma trimEnd_split s :
  ∃ ws, s = trimEnd s ++ ws ∧ allWhiteSpace ws
        ∧ ∀ c, last (trimEnd s) = Some c → isWhiteSpace c = false.
Proof.
  unfold trimEnd.
  destruct (trimStart_split (reverse s)) as (ws & Hs & Hws & Hhead).
  exists (reverse ws). split; [|split].
  - by rewrite <- reverse_app, <- Hs, reverse_involutive.
  - unfold allWhiteSpace in *. by apply Forall_reverse.
  - intros c. rewrite last_reverse. apply Hhead.
Qed.

Lemma trimEnd_fixed s :
  (∀ c, last s = Some c → isWhiteSpace c = false) → trimEnd s = s.
Proof.
  intros H. unfold trimEnd. rewrite trimStart_fixed.
  - apply reverse_involutive.
  - intros c. rewrite head_reverse. apply H.
Qed.

Lemma trimEnd_nil s : trimEnd s = [] ↔ allWhiteSpace s.
Proof.
  unfold trimEnd, allWhiteSpace. rewrite <- (Forall_reverse _ s).
  rewrite <- (trimStart_nil (reverse s)).
  split; [|by intros ->].
  intros H. apply (f_equal reverse) in H.
  by rewrite reverse_involutive in H.
Qed.

(** What [trim] returns has no white space at either end. *)
Lemma trim_trimmed s : trimmed (trim s).
Proof.
  unfold trim.
  destruct (trimStart_split s) as (_ & _ & _ & Hhead).
  destruct (trimEnd_split (trimStart s)) as (ws & Hs & _ & Hlast).
  split; [|done]. intros c Hc. apply Hhead. rewrite Hs.
  rewrite head_app. by rewrite Hc.
Qed.

(** A string with no white space at either end is left as it is. *)
Lemma trimmed_trim s : trimmed s → trim s = s.
Proof.
  intros [Hhead Hlast]. unfold trim.
  by rewrite trimStart_fixed, trimEnd_fixed.
Qed.

(** [trim] gives the empty string exactly on white space. *)
Lemma trim_nil s : trim s = [] ↔ allWhiteSpace s.
Proof.
  unfold trim. rewrite trimEnd_nil.
  destruct (trimStart_split s) as (ws & Hs & Hws & Hhead).
  split.
  - intros Hall. rewrite Hs. apply Forall_app. split; [done|].
    destruct (trimStart s) as [|c rest]; [constructor|].
    apply Forall_cons in Hall as [Hc _]. by rewrite (Hhead c) in Hc.
  - intros Hall. apply trimStart_nil in Hall as ->. constructor.
Qed.

(** The code units of [trim s] are code units of [s], in their order. *)
Lemma trim_sublist s : trim s `sublist_of` s.
Proof.
  unfold trim.
  destruct (trimStart_split s) as (ws & Hs & _).
  destruct (trimEnd_split (trimStart s)) as (ws' & Hs' & _).
  rewrite Hs at 2. rewrite Hs' at 2.
  apply sublist_inserts_l, sublist_inserts_r. done.
Qed.

Lemma split_nonempty sep s : split sep s ≠ [].
Proof. destruct s as [|c s]; simpl; [done|]. by repeat case_match. Qed.

(** The pieces of [split] hold the code units of the string other than the
    separator. *)
Lemma split_Forall sep (Q : codeUnit → Prop) s :
  Forall (Forall Q) (split sep s) ↔ Forall (fun c => c = sep ∨ Q c) s.
Proof.
  induction s as [|c s IH]; simpl.
  - split; [constructor|]. intros _. by repeat constructor.
  - rewrite Forall_cons, <- IH. clear IH. case_bool_decide as Hsep.
    + rewrite Forall_cons. split; [intros [_ ?]; auto|].
      intros [_ ?]. split; [constructor|done].
    + pose proof (split_nonempty sep s).
      destruct (split sep s) as [|piece pieces]; [done|].
      rewrite !Forall_cons. split.
      * intros [[Hc Hpiece] Hpieces]. auto.
      * intros [[Hc|Hc] [Hpiece Hpieces]]; [done|auto].
Qed.

Lemma split_no_separator sep s :
  Forall (fun piece => sep ∉ piece) (split sep s).
Proof.
  assert (H : Forall (Forall (fun c => c ≠ sep)) (split sep s)).
  { apply split_Forall, Forall_forall. intros c _.
    destruct (decide (c = sep)); auto. }
  eapply Forall_impl; [exact H|]. intros piece Hpiece Hin.
  rewrite Forall_forall in Hpiece. by apply (Hpiece sep).
Qed.

(** X6.  Every tag that [addEntry] sends is a non-empty string with no
    comma in it and no white space at either end. *)
Theorem parseTags_clean (tags : jsstring) :
  Forall (fun t => t ≠ [] ∧ (44%N ∉ t) ∧ trimmed t) (parseTags tags).
Proof.
  unfold parseTags. apply Forall_forall. intros t.
  rewrite list_elem_of_filter, list_elem_of_fmap.
  intros [Htruthy (piece & -> & Hpiece)].
  split; [|split; [|apply trim_trimmed]].
  - unfold truthy in Htruthy. by case_bool_decide.
  - pose proof (split_no_separator 44%N tags) as Hsep.
    rewrite Forall_forall in Hsep. intros Hin.
    apply (Hsep piece Hpiece).
    by apply (sublist_subseteq _ _ (trim_sublist piece)).
Qed.

Lemma filter_trim_nil pieces :
  filter (fun t => truthy t = true) (trim <$> pieces) = []
  ↔ Forall allWhiteSpace pieces.
Proof.
  induction pieces as [|piece pieces IH]; [by split; [constructor|]|].
  rewrite fmap_cons, filter_cons, Forall_cons, <- IH, <- trim_nil.
  unfold truthy. case_decide as Htruthy.
  - case_bool_decide as Hnil; [done|]. by split; [|intros []].
  - case_bool_decide as Hnil; [|done]. by split; [|intros []].
Qed.

(** X7.  No tag is sent exactly when the tags input holds nothing but
    white space and commas. *)
Theorem parseTags_nil (tags : jsstring) :
  parseTags tags = []
  ↔ Forall (fun c => c = 44%N ∨ isWhiteSpace c = true) tags.
Proof.
  rewrite <- split_Forall. apply filter_trim_nil.
Qed.

(** ** The form *)

Lemma length_trim s : (length (trim s) ≤ length s)%nat.
Proof. apply sublist_length, trim_sublist. Qed.

(** X5.  [validateInput] asks for a text exactly when the text is white
    space through and through (the empty text included), and for at most
    500 characters exactly when it is not and has more than 500 code units,
    white space at its ends counted; every other text passes. *)
Theorem validateInput_messages (text : jsstring) :
  (validateInput text = Some EnterGrowth ↔ allWhiteSpace text)
  ∧ (validateInput text = Some Within500
     ↔ ¬ allWhiteSpace text ∧ (500 < length text)%nat)
  ∧ (validateInput text = None
     ↔ ¬ allWhiteSpace text ∧ (length text ≤ 500)%nat).
Proof.
  rewrite <- !trim_nil. unfold validateInput, truthy.
  rewrite negb_involutive.
  repeat case_bool_decide; repeat split; try done; try lia;
    intros []; try done; lia.
Qed.

(** A text that passes is sent trimmed: not empty, of at most 500 code
    units, with no white space at either end. *)
Lemma validateInput_None text :
  validateInput text = None →
  trim text ≠ [] ∧ (length (trim text) ≤ 500)%nat ∧ trimmed (trim text).
Proof.
  unfold validateInput, truthy. rewrite negb_involutive.
  pose proof (length_trim text).
  repeat case_bool_decide; try done. intros _.
  split; [done|]. split; [lia|apply trim_trimmed].
Qed.

(** The three ways of [addEntry]. *)
Lemma addEntry_cases table newId now form :
  (∃ message,
     validateInput (form_text form) = Some message
     ∧ addEntry table newId now form = (table, Invalid message))
  ∨ (validateInput (form_text form) = None
     ∧ (form_effort form = 0 ∨ newId ∈ (g_id <$> table))
     ∧ addEntry table newId now form = (table, Failed))
  ∨ (validateInput (form_text form) = None
     ∧ form_effort form ≠ 0 ∧ (newId ∉ (g_id <$> table))
     ∧ addEntry table newId now form
       = (table ++ [mkRow newId now (trim (form_text form))
                      (form_effort form)
                      (JSON_stringify (parseTags (form_tags form)))
                      now now],
          Recorded)).
Proof.
  unfold addEntry.
  destruct (validateInput (form_text form)) as [message|] eqn:Hvalid;
    [left; by exists message|].
  right. apply validateInput_None in Hvalid as (Htext & _).
  fold (parseTags (form_tags form)).
  destruct (decide (form_effort form = 0)) as [Hzero|Hzero].
  { left. split; [done|]. split; [by left|].
    rewrite POST_rejected; [done|]. simpl. rewrite Hzero.
    apply orb_true_r. }
  destruct (decide (newId ∈ (g_id <$> table))) as [Hin|Hfresh].
  { left. split; [done|]. split; [by right|].
    rewrite POST_collision; [done| |done]. simpl. unfold truthy.
    by rewrite !bool_decide_false. }
  right. split; [done|]. split; [done|]. split; [done|].
  by rewrite POST_created.
Qed.

(** X8.  [addEntry] records an entry exactly when the text passes
    [validateInput], the effort is not zero and the generated id is free;
    it then appends one row, with the trimmed text and the parsed tags, and
    in every other case leaves the table as it was.  A text that does not
    pass is answered with the message of [validateInput]. *)
Theorem addEntry_outcome table newId now form :
  ((addEntry table newId now form).2 = Recorded
   ↔ validateInput (form_text form) = None
     ∧ form_effort form ≠ 0 ∧ newId ∉ (g_id <$> table))
  ∧ ((addEntry table newId now form).2 = Recorded →
     (addEntry table newId now form).1
     = table ++ [mkRow newId now (trim (form_text form)) (form_effort form)
                   (JSON_stringify (parseTags (form_tags form))) now now])
  ∧ ((addEntry table newId now form).2 ≠ Recorded →
     (addEntry table newId now form).1 = table)
  ∧ (∀ message,
       (addEntry table newId now form).2 = Invalid message
       ↔ validateInput (form_text form) = Some message).
Proof.
  destruct (addEntry_cases table newId now form)
    as [(m & Hvalid & ->) | [(Hvalid & Hwhy & ->)
                            | (Hvalid & Hzero & Hfresh & ->)]];
    simpl; rewrite Hvalid; repeat split; try done.
  - by intros (? & _).
  - by intros [= ->].
  - by intros [= ->].
  - intros (_ & Hzero & Hfresh). by destruct Hwhy.
Qed.

(** ** Reading back what was recorded *)

(** In a table with a primary key, an entry of a page that has the id of
    the row appended last is the entry of that row. *)
Lemma GET_take_entry_of_new_row tableScan take table row e0 searchParams
  page e :
  (∀ table, tableScan table ≡ₚ table) →
  g_id row ∉ (g_id <$> table) → decodeRow row = Some e0 →
  GET_take tableScan take (table ++ [row]) searchParams = Some page →
  e ∈ entries page → id e = g_id row → e = e0.
Proof.
  intros Hperm Hfresh Hrow Hpage Hin Hid.
  destruct (GET_take_entries_from_table tableScan Hperm _ _ _ _ _ Hpage Hin)
    as (r & Hr & Hdec).
  apply elem_of_app in Hr as [Hr | ->%list_elem_of_singleton].
  - exfalso. apply Hfresh.
    apply decodeRow_fields in Hdec as (Hidr & _).
    rewrite <- Hid, Hidr. by apply list_elem_of_fmap_2.
  - rewrite Hrow in Hdec. by injection Hdec as <-.
Qed.

(** X9.  What the form recorded is what the list shows: in every page
    that holds the entry of the generated id, its text is the trimmed text
    of the form (not empty, at most 500 code units), its effort the
    effort of the form, its tags the parsed tags and its date the clock
    reading of the request. *)
Theorem addEntry_then_GET tableScan table newId now form take searchParams
  page e :
  (∀ table, tableScan table ≡ₚ table) →
  (addEntry table newId now form).2 = Recorded →
  GET_take tableScan take (addEntry table newId now form).1 searchParams
  = Some page →
  e ∈ entries page → id e = newId →
  text e = trim (form_text form)
  ∧ text e ≠ [] ∧ (length (text e) ≤ 500)%nat
  ∧ effort e = form_effort form
  ∧ tags e = parseTags (form_tags form)
  ∧ date e = now.
Proof.
  intros Hperm Hrecorded.
  destruct (addEntry_cases table newId now form)
    as [(m & _ & Heq) | [(_ & _ & Heq) | (Hvalid & _ & Hfresh & Heq)]];
    rewrite Heq in Hrecorded |- *; try done.
  simpl. intros Hpage Hin Hid.
  apply validateInput_None in Hvalid as (Htext & Hlen & _).
  assert (e = mkEntry newId now (trim (form_text form)) (form_effort form)
                (parseTags (form_tags form)) now now) as ->; [|done].
  apply (GET_take_entry_of_new_row tableScan take table
           (mkRow newId now (trim (form_text form)) (form_effort form)
              (JSON_stringify (parseTags (form_tags form))) now now)
           _ searchParams page); try done.
  unfold decodeRow. simpl g_tags.
  by rewrite JSON_stringify_truthy, JSON_parse_stringify.
Qed.

(** ** What [POST] keeps *)

Lemma POST_table table newId now body :
  (POST table newId now body).1 = table
  ∨ ((newId ∉ (g_id <$> table))
     ∧ ∃ row, (POST table newId now body).1 = table ++ [row]
              ∧ g_id row = newId).
Proof.
  destruct (not_text (body_text body) || not_effort (body_effort body))
    eqn:Hguard; [left; by rewrite POST_rejected|].
  destruct (decide (newId ∈ (g_id <$> table))) as [Hin|Hfresh];
    [left; by rewrite POST_collision|].
  right. split; [done|]. unfold POST, prisma_create. rewrite Hguard.
  rewrite bool_decide_false by done. simpl.
  rewrite JSON_parse_stringify. simpl. by eexists.
Qed.

Lemma POST_primaryKey table newId now body :
  primaryKey table → primaryKey (POST table newId now body).1.
Proof.
  intros Hkey.
  destruct (POST_table table newId now body)
    as [-> | (Hfresh & row & -> & Hrow)]; [done|].
  unfold primaryKey. rewrite fmap_app.
  apply NoDup_app. split; [done|]. split; [|apply NoDup_singleton].
  intros x Hx ->%list_elem_of_singleton. simpl in Hx. by rewrite Hrow in Hx.
Qed.

(** X10.  [POST] only ever appends: the rows that were there stay, in
    their places and unchanged, at most one row is added, and the ids stay
    distinct. *)
Theorem POST_appends table newId now body :
  (∃ new, (POST table newId now body).1 = table ++ new
          ∧ (length new ≤ 1)%nat)
  ∧ (primaryKey table → primaryKey (POST table newId now body).1).
Proof.
  split; [|apply POST_primaryKey].
  destruct (POST_table table newId now body)
    as [-> | (_ & row & -> & _)].
  - exists []. rewrite app_nil_r. split; [done|simpl; lia].
  - exists [row]. split; [done|simpl; lia].
Qed.

Lemma POST_postedRow table newId now body :
  primaryKey table → Forall postedRow table →
  primaryKey (POST table newId now body).1
  ∧ Forall postedRow (POST table newId now body).1.
Proof.
  intros Hkey Hrows.
  split; [by apply POST_primaryKey|].
  destruct (not_text (body_text body) || not_effort (body_effort body))
    eqn:Hguard; [by rewrite POST_rejected|].
  destruct (decide (newId ∈ (g_id <$> table))) as [Hin|Hfresh];
    [by rewrite POST_collision|].
  apply orb_false_elim in Hguard as [Htext Heffort].
  destruct body as [[t|] [n|] ts]; try done. simpl in *.
  apply bool_decide_eq_false in Heffort.
  unfold truthy in Htext. apply negb_false_iff, negb_true_iff in Htext.
  apply bool_decide_eq_false in Htext.
  rewrite POST_created by done. simpl.
  apply Forall_app. split; [done|]. constructor; [|constructor].
  unfold postedRow. simpl. by repeat split; eauto.
Qed.

(** ** The list endpoint at its edges *)

Section RoutesEdges.

Variable tableScan : Table → list GrowthEntry.

(** X15.  [GET] decodes the rows of the page it is about to return and
    no other: it answers whenever each of the first [take] rows that
    follow the cursor has a tags text that is empty or reads as a list of
    strings, whatever the tags text of the extra row, which is taken off
    before the rows are decoded, and of the rows beyond it. *)
Theorem GET_take_decodes_the_page_only take table searchParams :
  Forall tagsReadable
    (firstn take (rowsAfter tableScan table (cursorOf searchParams))) →
  is_Some (GET_take tableScan take table searchParams).
Proof.
  intros Hrows. rewrite GET_take_rowsAfter. cbv zeta.
  set (rows := firstn take _) in *.
  assert (Hdec : is_Some (mapM decodeRow rows)).
  { apply mapM_is_Some. eapply Forall_impl; [exact Hrows|].
    intros r Hr. change (is_Some (decodeRow r)).
    destruct Hr as [Hnil|[decoded Hdecoded]]; unfold decodeRow.
    - rewrite Hnil. by eexists.
    - rewrite Hdecoded. destruct (truthy (g_tags r)); by eexists. }
  destruct Hdec as [es ->]. by eexists.
Qed.

(** X13.  A [cursor] parameter with an empty value is no cursor: the
    request gets the first page, as the request with no parameter does.
    So does every request in which [cursor] is absent. *)
Theorem GET_take_empty_cursor take table searchParams :
  GET_take tableScan take table ((str "cursor", []) :: searchParams)
  = GET_take tableScan take table []
  ∧ (searchParams_get (str "cursor") searchParams = None →
     GET_take tableScan take table searchParams
     = GET_take tableScan take table []).
Proof.
  split; [done|]. intros Hnone.
  rewrite !GET_take_rowsAfter. unfold cursorOf. by rewrite Hnone.
Qed.

Lemma fromCursor_unknown c rows :
  c ∉ (g_id <$> rows) → fromCursor c rows = [].
Proof.
  induction rows as [|r rows IH]; [done|].
  rewrite fmap_cons, not_elem_of_cons. intros [Hne Hnot]. simpl.
  rewrite bool_decide_false by done. by apply IH.
Qed.

Hypothesis tableScan_perm : ∀ table, tableScan table ≡ₚ table.

(** X14.  A cursor that is the id of no row gives an empty page and no
    further cursor: nothing is thrown, and nothing of the table is
    listed. *)
Theorem GET_take_unknown_cursor take table X :
  X ≠ [] → X ∉ (g_id <$> table) →
  GET_take tableScan take table [(str "cursor", X)]
  = Some (mkPage [] None).
Proof.
  intros Hne Hnot. rewrite GET_take_rowsAfter.
  assert (Hcursor : cursorOf [(str "cursor", X)] = Some X).
  { unfold cursorOf, truthy. simpl. by rewrite bool_decide_false. }
  rewrite Hcursor. simpl rowsAfter. rewrite fromCursor_unknown.
  - simpl. by rewrite take_nil.
  - by rewrite (ordered_perm tableScan tableScan_perm).
Qed.

(** X16.  In a table with a primary key, the entries of a page have
    distinct ids, each the id of a row of the table; the cursor returned
    with the page is the id of a row of the table too, and of no entry of
    the page. *)
Theorem GET_take_page_ids take table searchParams page :
  primaryKey table →
  GET_take tableScan take table searchParams = Some page →
  NoDup (id <$> entries page)
  ∧ (id <$> entries page) ⊆ (g_id <$> table)
  ∧ ∀ c, nextCursor page = Some c →
         c ∈ (g_id <$> table) ∧ c ∉ (id <$> entries page).
Proof.
  intros Hkey [Hpage Hnext]%GET_take_Some.
  apply mapM_decodeRow_ids in Hpage. rewrite Hpage, Hnext. clear Hpage Hnext.
  destruct (rowsAfter_suffix tableScan table (cursorOf searchParams))
    as [before Hordered].
  set (rows := rowsAfter _ _ _) in *.
  pose proof (ordered_NoDup tableScan tableScan_perm desc table Hkey) as Hnd.
  assert (Hids : (g_id <$> rows) ⊆ (g_id <$> table)).
  { rewrite <- (ordered_perm tableScan tableScan_perm desc table), Hordered.
    rewrite fmap_app. intros x Hx. apply elem_of_app. by right. }
  rewrite Hordered, fmap_app in Hnd. apply NoDup_app in Hnd as (_ & _ & Hnd).
  split; [|split].
  - rewrite fmap_take. eapply sublist_NoDup; [done|apply sublist_take].
  - intros x Hx. apply Hids. rewrite fmap_take in Hx.
    by apply (subseteq_take take).
  - intros c Hc. apply fmap_Some in Hc as (r & Hr & ->).
    split; [apply Hids; apply list_elem_of_fmap_2;
            by apply list_elem_of_lookup_2 in Hr|].
    rewrite <- (take_drop_middle _ _ _ Hr), fmap_app, fmap_cons in Hnd.
    apply NoDup_app in Hnd as (_ & Hnot & _).
    intros Hin. apply (Hnot _ Hin). apply elem_of_cons. by left.
Qed.

End RoutesEdges.

(** ** Tables built by [POST] *)

Lemma posted_rows table :
  posted table → primaryKey table ∧ Forall postedRow table.
Proof.
  induction 1 as [|table newId now body _ [Hkey Hrows]].
  - split; [apply NoDup_nil_2|constructor].
  - by apply POST_postedRow.
Qed.

Lemma postedRow_decodes r : postedRow r → is_Some (decodeRow r).
Proof.
  intros (_ & _ & _ & _ & decoded & Htags). unfold decodeRow.
  rewrite Htags, JSON_stringify_truthy, JSON_parse_stringify. by eexists.
Qed.

(** X11.  Whatever requests were made to [POST], in whatever order and
    whether accepted or not, the table they leave has distinct ids, and
    every row of it has a text that is not empty, an effort that is not
    zero, one clock reading in its three date columns and a tags text that
    is the JSON text of a list of strings. *)
Theorem posted_table_invariant table :
  posted table →
  primaryKey table
  ∧ Forall (fun r =>
      g_text r ≠ [] ∧ g_effort r ≠ 0
      ∧ g_createdAt r = g_date r ∧ g_updatedAt r = g_date r
      ∧ ∃ decoded, g_tags r = JSON_stringify decoded
                   ∧ JSON_parse (g_tags r) = Some decoded) table.
Proof.
  intros [Hkey Hrows]%posted_rows. split; [done|].
  eapply Forall_impl; [exact Hrows|].
  intros r (Htext & Heffort & Hcreated & Hupdated & decoded & Htags).
  repeat split; try done. exists decoded. split; [done|].
  by rewrite Htags, JSON_parse_stringify.
Qed.

Lemma postedInt32_posted table : postedInt32 table → posted table.
Proof. induction 1; by constructor. Qed.

(** X12.  On a table built by requests to [POST] whose efforts are values
    of the column type, [GET] never throws on decoding: every request,
    with any cursor, is answered with a page. *)
Theorem GET_take_answers_on_posted_table tableScan take table searchParams :
  (∀ table, tableScan table ≡ₚ table) →
  postedInt32 table →
  is_Some (GET_take tableScan take table searchParams).
Proof.
  intros Hperm [_ Hrows]%postedInt32_posted%posted_rows.
  rewrite GET_take_rowsAfter. cbv zeta.
  set (rows := rowsAfter _ _ _).
  assert (Hdec : is_Some (mapM decodeRow (firstn take rows))).
  { apply mapM_is_Some, Forall_take.
    destruct (rowsAfter_suffix tableScan table (cursorOf searchParams))
      as [before Hordered]. fold rows in Hordered.
    assert (Hall : Forall postedRow (ordered tableScan desc table))
      by (by rewrite (ordered_perm tableScan Hperm)).
    rewrite Hordered in Hall. apply Forall_app in Hall as [_ Hall].
    eapply Forall_impl; [exact Hall|]. apply postedRow_decodes. }
  destruct Hdec as [es ->]. by eexists.
Qed.


(** ** Following the cursors to the end *)

Lemma StronglySorted_sublist {A} (R : relation A) l1 l2 :
  l1 `sublist_of` l2 → StronglySorted R l2 → StronglySorted R l1.
Proof.
  induction 1 as [|x l1 l2 Hsub IH|x l1 l2 Hsub IH]; intros Hsorted.
  - constructor.
  - apply StronglySorted_inv in Hsorted as [Hrest Hhead].
    constructor; [by apply IH|].
    rewrite Forall_forall in Hhead |- *. intros y Hy.
    by apply Hhead, (sublist_subseteq _ _ Hsub).
  - apply StronglySorted_inv in Hsorted as [Hrest _]. by apply IH.
Qed.

(** With a request for every 21 rows and one more, the client gets to the
    end; it is served the rows in their order, all but one in every 21. *)
Lemma servedRows_enough fuel rows :
  (length rows < 21 * fuel)%nat →
  ∃ out, servedRows fuel rows = Some out
         ∧ out `sublist_of` rows
         ∧ length out = (length rows - length rows / 21)%nat.
Proof.
  revert rows. induction fuel as [|fuel IH]; intros rows Hfuel; [lia|].
  simpl. case_bool_decide as Hmore.
  - destruct (IH (skipn 21 rows)) as (rest & -> & Hsub & Hlen).
    { rewrite length_drop. lia. }
    simpl. eexists. split; [done|]. split.
    + rewrite <- (take_drop 20 rows) at 2. apply sublist_app; [done|].
      etrans; [exact Hsub|].
      replace (skipn 21 rows) with (skipn 1 (skipn 20 rows))
        by (by rewrite drop_drop).
      apply sublist_drop.
    + rewrite length_app, length_take, Hlen, length_drop.
      change (Nat.divmod (length rows) 20 0 20).1
        with (length rows / 21)%nat.
      assert (length rows / 21 = S ((length rows - 21) / 21))%nat as ->.
      { replace (length rows) with (1 * 21 + (length rows - 21))%nat at 1
          by lia.
        by rewrite Nat.div_add_l by lia. }
      pose proof (Nat.Div0.div_le_upper_bound (length rows - 21) 21
                    (length rows - 21)).
      lia.
  - exists rows. split; [done|]. split; [done|].
    change (Nat.divmod (length rows) 20 0 20).1
      with (length rows / 21)%nat.
    rewrite Nat.div_small by lia. lia.
Qed.

(** X17.  A client that follows the cursors over a table with distinct,
    non-empty ids and decodable rows gets to the end within one request
    for every 21 rows and one more.  What it has then is in date order,
    newest first, with no entry twice and every entry one of the table,
    and it is short of the table by one entry for every full 21 rows. *)
Theorem listAll_serves_all_but_one_in_21 tableScan fuel table :
  (∀ table, tableScan table ≡ₚ table) →
  primaryKey table →
  Forall (fun r => g_id r ≠ []) table →
  Forall (fun r => is_Some (decodeRow r)) table →
  (length table < 21 * fuel)%nat →
  ∃ es,
    listAll tableScan fuel table [] = Some es
    ∧ length es = (length table - length table / 21)%nat
    ∧ NoDup (id <$> es)
    ∧ dateDescending es
    ∧ (id <$> es) ⊆ (g_id <$> table).
Proof.
  intros Hperm Hkey Hids Hdec Hfuel.
  rewrite (listAll_servedRows tableScan Hperm) by done.
  change (cursorOf []) with (@None jsstring). simpl rowsAfter.
  pose proof (ordered_perm tableScan Hperm desc table) as Hp.
  destruct (servedRows_enough fuel (ordered tableScan desc table))
    as (out & -> & Hsub & Hlen); [by rewrite Hp|].
  simpl. rewrite Hp in Hlen.
  assert (Hout : is_Some (mapM decodeRow out)).
  { apply mapM_is_Some, Forall_forall. intros r Hr.
    rewrite Forall_forall in Hdec. apply Hdec. rewrite <- Hp.
    by apply (sublist_subseteq _ _ Hsub). }
  destruct Hout as [es Hes]. exists es. split; [done|].
  pose proof (mapM_decodeRow_ids _ _ Hes) as Hides.
  split; [by rewrite <- (length_mapM _ _ _ Hes)|].
  split; [|split].
  - rewrite Hides.
    eapply sublist_NoDup;
      [apply (ordered_NoDup tableScan Hperm desc table Hkey)|].
    by apply fmap_sublist.
  - apply (mapM_decodeRow_sorted _ _ Hes).
    eapply StronglySorted_sublist; [exact Hsub|].
    apply ordered_sorted.
  - rewrite Hides, <- Hp. intros x Hx.
    apply list_elem_of_fmap in Hx as (r & -> & Hr).
    apply list_elem_of_fmap_2. by apply (sublist_subseteq _ _ Hsub).
Qed.

(** ** The timeline of the page *)

Lemma mapM_const {A B} (f : A → option B) (y : B) (l : list A) :
  (∀ x, x ∈ l → f x = Some y) → mapM f l = Some (replicate (length l) y).
Proof.
  induction l as [|x l IH]; intros Hall; [done|]. simpl.
  rewrite (Hall x) by (by left). simpl.
  rewrite IH; [done|]. intros x' Hx'. apply Hall. by right.
Qed.

Lemma bind_replicate {A B} (f : A → list B) (x : A) (n : nat) :
  replicate n x ≫= f = mjoin (replicate n (f x)).
Proof.
  induction n as [|n IH]; [done|].
  by rewrite !replicate_S, bind_cons, IH.
Qed.

Lemma last_replicate_S {A} (x : A) (n : nat) :
  last (replicate (S n) x) = Some x.
Proof. by rewrite replicate_S_end, last_snoc. Qed.

(** X18.  The page asks for its pages with the parameter [page], which
    [GET] does not read: each of the [size] pages it has loaded is the
    first page again.  The timeline is the first page [size] times over,
    and the button for more is shown whenever the first page has an entry,
    however many pages are loaded. *)
Theorem HomePage_loads_the_first_page_again tableScan table size page :
  GET tableScan table [] = Some page →
  swrData tableScan table size = Some (replicate size page)
  ∧ HomePage_list (swrData tableScan table size)
    = mjoin (replicate size (entries page))
  ∧ (HomePage_hasMore (swrData tableScan table size) = true
     ↔ (0 < size)%nat ∧ entries page ≠ []).
Proof.
  intros Hpage.
  assert (Hdata : swrData tableScan table size
                  = Some (replicate size page)).
  { unfold swrData. rewrite (mapM_const _ page), length_seq; [done|].
    intros index _. rewrite <- Hpage. unfold GET.
    by apply GET_take_cursor_only. }
  rewrite Hdata. split; [done|]. simpl. split; [apply bind_replicate|].
  destruct size as [|size]; [simpl; split; [done|lia]|].
  rewrite last_replicate_S, bool_decide_eq_true.
  destruct (entries page); simpl; split; try done; try lia.
  - by intros [_ ?].
  - intros _. split; [lia|done].
Qed.

Lemma mjoin_replicate_singleton {A} (x : A) (n : nat) :
  mjoin (replicate n [x]) = replicate n x.
Proof. induction n as [|n IH]; simpl; [done|]. by rewrite IH. Qed.

(** X19.  [POST] lets a negative effort through, and the card of such an
    entry cannot be drawn: repeating the star a negative number of times
    throws.  For an effort of the form's range, 1 to 5, the card shows
    that many stars. *)
Theorem EntryCard_stars_of_created_entry table newId now t ts n :
  t ≠ [] → n ≠ 0 → newId ∉ (g_id <$> table) → Int32 n →
  ∃ row e,
    POST table newId now (mkBody (Some t) (Some n) ts)
    = (table ++ [row], Created e)
    ∧ (n < 0 → EntryCard_stars e = None)
    ∧ (1 ≤ n ≤ 5 →
       EntryCard_stars e = Some (replicate (Z.to_nat n) 9733%N)).
Proof.
  intros Ht Hn Hfresh _. eexists _, _. rewrite POST_created by done.
  split; [done|]. unfold EntryCard_stars, String_repeat. cbn [effort].
  split; intros Hrange.
  - by rewrite bool_decide_true.
  - rewrite bool_decide_false by lia.
    f_equal. apply (mjoin_replicate_singleton 9733%N (Z.to_nat n)).
Qed.

(** * The further properties at concrete inputs *)


(** In New York, late in the evening of the day the clocks went back:
    one entry of half past midnight of that day makes a streak of 1. *)
Lemma calcStreak_earlyMorning :
  Zoned.midnightsKept Zoned.newYork
  ∧ Zoned.calcStreak Zoned.newYork lateEvening earlyMorning = 1%nat
  ∧ (Zoned.calcStreak Zoned.newYork lateEvening earlyMorning = 0%nat
     ↔ earlyMorning = []
       ∨ ∃ e rest, earlyMorning = e :: rest
                   ∧ Zoned.localDay Zoned.newYork (date e)
                     ≠ Zoned.localDay Zoned.newYork lateEvening).
Proof.
  split; [exact newYork_midnightsKept|].
  split; [vm_compute; reflexivity|].
  exact (calcStreak_zero_in_zone Zoned.newYork lateEvening earlyMorning
           newYork_midnightsKept).
Defined.

(** The form with padded text and tags, recorded on an empty table and
    read on the first page. *)
Lemma addEntry_sampleForm_then_GET :
  let e := mkEntry (str "c1") noon (str "grew") 3 [str "a"; str "b"]
             noon noon in
  text e = trim (form_text sampleForm)
  ∧ text e ≠ [] ∧ (length (text e) ≤ 500)%nat
  ∧ effort e = form_effort sampleForm
  ∧ tags e = parseTags (form_tags sampleForm)
  ∧ date e = noon.
Proof.
  intros e.
  apply (addEntry_then_GET insertionScan [] (str "c1") noon sampleForm 20
           [] (mkPage [e] None) e insertionScan_perm).
  - reflexivity.
  - vm_compute. reflexivity.
  - apply list_elem_of_here.
  - reflexivity.
Defined.

Lemma twoPosts_postedInt32 : postedInt32 twoPosts.
Proof.
  unfold twoPosts.
  apply postedInt32_POST; [apply postedInt32_POST; [constructor|]|];
    intros n [= <-]; unfold Int32; lia.
Qed.

Lemma twoPosts_posted : posted twoPosts.
Proof. unfold twoPosts. apply posted_POST, posted_POST, posted_empty. Qed.

(** The rows of the table after two requests to [POST]. *)
Lemma twoPosts_invariant :
  primaryKey twoPosts
  ∧ Forall (fun r =>
      g_text r ≠ [] ∧ g_effort r ≠ 0
      ∧ g_createdAt r = g_date r ∧ g_updatedAt r = g_date r
      ∧ ∃ decoded, g_tags r = JSON_stringify decoded
                   ∧ JSON_parse (g_tags r) = Some decoded) twoPosts.
Proof. exact (posted_table_invariant twoPosts twoPosts_posted). Defined.

(** The first page of the table after two requests to [POST]. *)
Lemma GET_twoPosts :
  is_Some (GET_take insertionScan 20 twoPosts []).
Proof.
  exact (GET_take_answers_on_posted_table insertionScan 20 twoPosts []
           insertionScan_perm twoPosts_postedInt32).
Defined.

(** A table of three rows whose oldest row has a broken tags text, read
    two rows a page: the first page is answered, the broken row being the
    extra row; with three rows a page the broken row is decoded. *)
Lemma GET_brokenOldest :
  Forall tagsReadable
    (firstn 2 (rowsAfter insertionScan brokenOldest (cursorOf [])))
  ∧ is_Some (GET_take insertionScan 2 brokenOldest [])
  ∧ (nextCursor <$> GET_take insertionScan 2 brokenOldest [])
    = Some (Some (str "2"))
  ∧ GET_take insertionScan 3 brokenOldest [] = None.
Proof.
  assert (Hrows : Forall tagsReadable
            (firstn 2 (rowsAfter insertionScan brokenOldest (cursorOf [])))).
  { change (firstn 2 (rowsAfter insertionScan brokenOldest (cursorOf [])))
      with [dailyRow 0; dailyRow 1].
    apply Forall_cons; split; [right; eexists; vm_compute; reflexivity|].
    apply Forall_cons; split; [right; eexists; vm_compute; reflexivity|].
    apply Forall_nil. exact I. }
  split; [exact Hrows|].
  split; [exact (GET_take_decodes_the_page_only insertionScan 2
                   brokenOldest [] Hrows)|].
  split; vm_compute; reflexivity.
Defined.

(** A cursor that names no row of a table of 21 daily entries. *)
Lemma GET_cursor_of_no_row :
  GET_take insertionScan 20 (dailyTable 21) [(str "cursor", str "nope")]
  = Some (mkPage [] None).
Proof.
  apply (GET_take_unknown_cursor insertionScan insertionScan_perm 20
           (dailyTable 21) (str "nope")).
  - discriminate.
  - apply (bool_decide_unpack _). by vm_compute.
Defined.

(** The ids of the first page of a table of 21 daily entries. *)
Lemma GET_first_page_of_21_ids :
  ∃ page,
    GET insertionScan (dailyTable 21) [] = Some page
    ∧ NoDup (id <$> entries page)
    ∧ (id <$> entries page) ⊆ (g_id <$> dailyTable 21)
    ∧ ∀ c, nextCursor page = Some c →
           c ∈ (g_id <$> dailyTable 21) ∧ c ∉ (id <$> entries page).
Proof.
  assert (Hpage : {page | GET_take insertionScan 20 (dailyTable 21) []
                          = Some page})
    by (eexists; vm_compute; reflexivity).
  destruct Hpage as [page Hpage]. exists page.
  split; [exact Hpage|].
  exact (GET_take_page_ids insertionScan insertionScan_perm 20
           (dailyTable 21) [] page dailyTable_primaryKey Hpage).
Defined.

(** Following the cursors over a table of 21 daily entries: 20 entries. *)
Lemma listAll_of_21 :
  ∃ es,
    listAll insertionScan 2 (dailyTable 21) [] = Some es
    ∧ length es = (length (dailyTable 21) - length (dailyTable 21) / 21)%nat
    ∧ NoDup (id <$> es)
    ∧ dateDescending es
    ∧ (id <$> es) ⊆ (g_id <$> dailyTable 21).
Proof.
  apply (listAll_serves_all_but_one_in_21 insertionScan 2 (dailyTable 21)
           insertionScan_perm dailyTable_primaryKey).
  - apply (bool_decide_unpack _). by vm_compute.
  - apply (bool_decide_unpack _). by vm_compute.
  - vm_compute. lia.
Defined.

(** The page with two pages loaded over a table of four entries: the four
    entries twice, and the button for more still shown. *)
Lemma HomePage_scenario_two_pages :
  ∃ page,
    GET insertionScan scenarioTable [] = Some page
    ∧ length (entries page) = 4%nat
    ∧ HomePage_list (swrData insertionScan scenarioTable 2)
      = entries page ++ entries page
    ∧ HomePage_hasMore (swrData insertionScan scenarioTable 2) = true.
Proof.
  assert (Hpage : {page | GET insertionScan scenarioTable [] = Some page
                          ∧ length (entries page) = 4%nat})
    by (eexists; vm_compute; split; reflexivity).
  destruct Hpage as (page & Hpage & Hlen). exists page.
  split; [exact Hpage|]. split; [exact Hlen|].
  destruct (HomePage_loads_the_first_page_again insertionScan scenarioTable
              2 page Hpage) as (_ & Hlist & Hmore).
  split.
  - rewrite Hlist. simpl. by rewrite app_nil_r.
  - apply Hmore. split; [lia|]. by destruct (entries page).
Defined.

(** The card of an entry created with the effort -2. *)
Lemma EntryCard_stars_effort_minus_2 :
  ∃ row e,
    POST [] (str "c1") noon (mkBody (Some (str "ok")) (Some (-2)) None)
    = ([] ++ [row], Created e)
    ∧ (-2 < 0 → EntryCard_stars e = None)
    ∧ (1 ≤ -2 ≤ 5 →
       EntryCard_stars e = Some (replicate (Z.to_nat (-2)) 9733%N)).
Proof.
  apply (EntryCard_stars_of_created_entry [] (str "c1") noon (str "ok")
           None (-2)).
  - discriminate.
  - lia.
  - apply not_elem_of_nil.
  - unfold Int32. lia.
Defined.


(** A table of four entries is listed whole by the first request. *)
Lemma listAll_scenarioTable :
  listAll insertionScan 1 scenarioTable []
  = mapM decodeRow (ordered insertionScan desc scenarioTable).
Proof.
  apply (listAll_one_page insertionScan 0 scenarioTable).
  vm_compute. lia.
Defined.

(** The oldest of 21 daily entries is on no page. *)
Lemma listAll_of_21_without_row_21 :
  ∃ es,
    listAll insertionScan 2 (dailyTable 21) [] = Some es
    ∧ g_id (dailyRow 20) ∉ (id <$> es).
Proof.
  assert (Hes : {es | listAll insertionScan 2 (dailyTable 21) [] = Some es})
    by (eexists; vm_compute; reflexivity).
  destruct Hes as [es Hes]. exists es. split; [exact Hes|].
  apply (listAll_never_serves_row_21 insertionScan 2 (dailyTable 21)
           (dailyRow 20) es insertionScan_perm dailyTable_primaryKey).
  - apply (bool_decide_unpack _). by vm_compute.
  - by vm_compute.
  - exact Hes.
Defined.
